(** * Onset detection pipeline of [debug_onset_detection.py]

    A shallow embedding of the four functions of the script
    ([read_wav], [calculate_energy_envelope], [detect_onsets] and [main])
    and the properties of the specification that concern them.

    Numbers.  A Python [int] is a [Z].  A Python [float] is a finite
    double, modelled by its exact rational value ([Q]); every float
    operation of the script computes the exact result and rounds it with
    [fl], the rounding to the nearest double.  The definitions take [fl] as
    a parameter, the properties are proved for every rounding that obeys
    the laws [rounding], and [round64] below is the rounding of IEEE-754
    binary64 (53 bits, ties to even, gradual underflow), for which the laws
    are proved and on which the definitions run.  A result beyond the
    largest double is an infinity in Python: the model shows it where the
    script can observe it, as the [OverflowError] of [float(n)] for an
    [int] and of [int(x)] for a product.  Infinite and NaN inputs are
    outside the model.  [math.sqrt] is a libm primitive: the envelope is
    parameterised by it, and [double_sqrt] is the correctly rounded square
    root on doubles.

    Exceptions.  Every operation that can raise in Python returns a
    [result]; the exceptions that matter are listed in [exn]. *)

From Stdlib Require Import ZArith QArith Qround Qabs Qpower Qreduction.
From Stdlib Require Import List Bool Lia Lqa Sorted Permutation.
From Stdlib.Strings Require Import Byte.
Import ListNotations.

Open Scope Q_scope.

(** ** The Python runtime the script relies on *)

(** The reasons for which a [ValueError] is raised along the script. *)
Inductive value_error : Type :=
| RangeStepZero                  (* range() arg 3 must not be zero *)
| MathDomain                     (* math.sqrt of a negative number *)
| MaxEmpty                       (* max() of an empty sequence *)
| UnsupportedSampleWidth (w : Z) (* raised by read_wav itself *).

Inductive exn : Type :=
| ValueError (why : value_error)
| ZeroDivisionError
| OverflowError
| StructError.

Inductive result (A : Type) : Type :=
| Ok (a : A)
| Err (e : exn).

Arguments Ok {A} a.
Arguments Err {A} e.

Definition bind {A B : Type} (m : result A) (k : A -> result B) : result B :=
  match m with
  | Ok a => k a
  | Err e => Err e
  end.

Notation "x <- m ;; k" := (bind m (fun x => k))
  (at level 61, m at next level, right associativity).

(** The builtins that do no float arithmetic, under their Python names. *)
Module Py.

(** [x > y] on floats. *)
Definition gt (x y : Q) : bool :=
  match x ?= y with
  | Gt => true
  | _ => false
  end.

(** [int(x)] on a finite float: truncation towards zero. *)
Definition int (x : Q) : Z := Z.quot (Qnum x) (Zpos (Qden x)).

(** [max(xs)]: the first greatest element; raises on an empty sequence. *)
Definition max (xs : list Q) : result Q :=
  match xs with
  | [] => Err (ValueError MaxEmpty)
  | x :: rest => Ok (fold_left (fun m y => if gt y m then y else m) rest x)
  end.

(** Number of elements of [range(lo, hi, step)] for [step <> 0]. *)
Definition range_len (lo hi step : Z) : Z :=
  if (0 <? step)%Z then
    (if (lo <? hi)%Z then (hi - lo - 1) / step + 1 else 0)%Z
  else
    (if (hi <? lo)%Z then (lo - hi - 1) / (- step) + 1 else 0)%Z.

(** [range(lo, hi, step)] as the list it iterates over. *)
Definition range (lo hi step : Z) : result (list Z) :=
  if (step =? 0)%Z then Err (ValueError RangeStepZero)
  else Ok (map (fun k => (lo + Z.of_nat k * step)%Z)
               (seq 0 (Z.to_nat (range_len lo hi step)))).

(** A slice bound, as Python adjusts it: negative bounds count from the
    end, and the result is clamped to [0, len]. *)
Definition clamp (len i : Z) : Z :=
  let j := if (i <? 0)%Z then (i + len)%Z else i in
  Z.max 0 (Z.min len j).

(** [xs[lo:hi]]. *)
Definition slice {A : Type} (xs : list A) (lo hi : Z) : list A :=
  let len := Z.of_nat (length xs) in
  let a := clamp len lo in
  let b := clamp len hi in
  firstn (Z.to_nat (b - a)) (skipn (Z.to_nat a) xs).

(** [sorted(xs, key=key, reverse=True)].  The builtin is documented to be
    stable, and with [reverse=True] elements with equal keys keep their
    original order; insertion from the right realises that contract. *)
Fixpoint insert_desc {A : Type} (key : A -> Q) (x : A) (l : list A) : list A :=
  match l with
  | [] => [x]
  | y :: l' => if gt (key y) (key x) then y :: insert_desc key x l'
               else x :: y :: l'
  end.

Definition sorted_reverse {A : Type} (key : A -> Q) (xs : list A) : list A :=
  fold_right (insert_desc key) [] xs.

(** [struct.unpack('<h', ...)] on one group: signed 16-bit little-endian. *)
Definition le_i16 (b0 b1 : byte) : Z :=
  let u := (Z.of_N (Byte.to_N b0) + 256 * Z.of_N (Byte.to_N b1))%Z in
  if (u <? 32768)%Z then u else (u - 65536)%Z.

(** [struct.unpack(f'<{n}h', buf)]: the buffer must hold exactly [n]
    groups of two bytes. *)
Fixpoint unpack_h (n : nat) (buf : list byte) : result (list Z) :=
  match n, buf with
  | O, [] => Ok []
  | S n', b0 :: b1 :: rest =>
      bind (unpack_h n' rest) (fun xs => Ok (le_i16 b0 b1 :: xs))
  | _, _ => Err StructError
  end.

End Py.

(** ** Float arithmetic *)

(** An argument that Python accepts as a number: an [int] or a [float]. *)
Inductive number : Type :=
| PyInt (z : Z)
| PyFloat (x : Q).

(** The largest finite double, [(2 - 2^-52) * 2^1023]. *)
Definition double_max : Q := inject_Z (2 ^ 1024 - 2 ^ 971).

(** The rounded result does not fit a double: Python holds an infinity. *)
Definition overflows (x : Q) : bool := Py.gt (Qabs x) double_max.

Section Floats.

(** The rounding to the nearest float, the exponent unbounded above. *)
Variable fl : Q -> Q.

(** [x + y], [x - y], [x * y] and [x / y] on floats. *)
Definition fadd (x y : Q) : Q := fl (x + y).
Definition fsub (x y : Q) : Q := fl (x - y).
Definition fmul (x y : Q) : Q := fl (x * y).
Definition fdiv (x y : Q) : Q := fl (x / y).

(** The conversion that a float operation applies to its other operand:
    a float is taken as it is, an [int] is rounded, and an [int] beyond
    the range of the doubles raises [OverflowError]. *)
Definition to_float (n : number) : result Q :=
  match n with
  | PyFloat x => Ok x
  | PyInt z =>
      let x := fl (inject_Z z) in
      if overflows x then Err OverflowError else Ok x
  end.

(** [x / y] for a float [x] and a divisor that converts exactly to the
    float [y]. *)
Definition float_truediv (x y : Q) : result Q :=
  if Qeq_bool y 0 then Err ZeroDivisionError else Ok (fdiv x y).

(** [a / b] on two [int]s: the quotient, rounded once.  The script
    divides a sample count or a sample index by the sample rate: the
    quotient is within the range of the doubles. *)
Definition int_truediv (a b : Z) : result Q :=
  if (b =? 0)%Z then Err ZeroDivisionError
  else Ok (fl (inject_Z a / inject_Z b)).

(** [sum(xs)] on floats: left to right from 0, one rounding per addition
    (the plain loop of CPython up to 3.11; later versions compensate the
    rounding errors). *)
Definition fsum (xs : list Q) : Q := fold_left fadd xs 0.

End Floats.

(** ** The doubles *)

(** The integer nearest to [q], ties to the even one. *)
Definition rne (q : Q) : Z :=
  let f := Qfloor q in
  match Qcompare (q - inject_Z f) (1 # 2) with
  | Lt => f
  | Gt => (f + 1)%Z
  | Eq => if Z.even f then f else (f + 1)%Z
  end.

(** [floor (log2 x)] for [x > 0]. *)
Definition ilog2 (x : Q) : Z :=
  if Qle_bool 1 x then Z.log2 (Qfloor x)
  else (- Z.log2_up (Qceiling (/ x)))%Z.

(** The exponent of the unit in the last place of [x > 0]: 53 significant
    bits, and never below the subnormal grid [2^-1074]. *)
Definition ulp_exp (x : Q) : Z := Z.max (ilog2 x - 52) (-1074).

Definition round_pos (x : Q) : Q :=
  let e := ulp_exp x in inject_Z (rne (x / 2 ^ e)) * 2 ^ e.

(** The double nearest to [x], ties to even; the exponent is unbounded
    above, see [overflows]. *)
Definition round64 (x : Q) : Q :=
  match Qnum x with
  | Z0 => 0
  | Zpos _ => Qred (round_pos x)
  | Zneg _ => Qred (- round_pos (- x))
  end.

(** [math.sqrt] on the doubles that are not negative.  The integer root
    [s] of [x * 4^1100] locates the real root in [s, s + 1) / 2^1100, an
    interval that holds no double and no midpoint of two doubles in its
    interior, so that rounding the root itself (when it is exact) or the
    middle of the interval gives the correctly rounded root. *)
Definition double_sqrt (x : Q) : Q :=
  match Qnum x with
  | Zpos _ =>
      let y := x * 4 ^ 1100 in
      let s := Z.sqrt (Qfloor y) in
      if Qeq_bool (inject_Z (s * s)) y
      then round64 (inject_Z s / 2 ^ 1100)
      else round64 (inject_Z (2 * s + 1) / 2 ^ 1101)
  | _ => 0
  end.

(** ** [read_wav] *)

(** What [wave.open] exposes of the container. *)
Record wav : Type := {
  getframerate : Z;
  getnframes : nat;
  getsampwidth : Z;
  readframes : list byte
}.

Section ReadWav.

(** [struct.unpack(f'<{n}f', buf)], the decoding of IEEE-754 singles, is
    left abstract. *)
Variable unpack_f : nat -> list byte -> result (list Q).

(** [s / 32768.0] divides a 16-bit integer by a power of two: the quotient
    is a double and the division is exact. *)
Definition read_wav (w : wav) : result (list Q * Z) :=
  let sample_rate := getframerate w in
  let num_frames := getnframes w in
  let frames := readframes w in
  if (getsampwidth w =? 2)%Z then
    samples <- Py.unpack_h num_frames frames ;;
    Ok (map (fun s => inject_Z s / 32768) samples, sample_rate)
  else if (getsampwidth w =? 4)%Z then
    samples <- unpack_f num_frames frames ;;
    Ok (samples, sample_rate)
  else Err (ValueError (UnsupportedSampleWidth (getsampwidth w))).

End ReadWav.

(** ** [calculate_energy_envelope] *)

(** The default of [window_ms]. *)
Definition default_window_ms : Q := 5.

Section Envelope.

Variable fl : Q -> Q.

(** [math.sqrt] on its domain. *)
Variable sqrt : Q -> Q.

(** [math.sqrt(x)]: a negative argument is a domain error. *)
Definition math_sqrt (x : Q) : result Q :=
  if Py.gt 0 x then Err (ValueError MathDomain) else Ok (sqrt x).

(** [(sample_rate * window_ms) / 1000.0], as far as [int] accepts it: the
    sample rate is converted, and a product beyond the doubles is an
    infinity, which the division keeps and [int] refuses. *)
Definition window_quotient (sample_rate : Z) (window_ms : Q) : result Q :=
  rate <- to_float fl (PyInt sample_rate) ;;
  let product := fmul fl rate window_ms in
  if overflows product then Err OverflowError
  else Ok (fdiv fl product 1000).

(** [int((sample_rate * window_ms) / 1000.0)]. *)
Definition window_samples (sample_rate : Z) (window_ms : Q) : result Z :=
  quotient <- window_quotient sample_rate window_ms ;;
  Ok (Py.int quotient).

(** [math.sqrt(sum(s*s for s in chunk) / len(chunk))]; the length of a
    chunk is a small integer, which converts exactly. *)
Definition rms (chunk : list Q) : result Q :=
  mean <- float_truediv fl (fsum fl (map (fun s => fmul fl s s) chunk))
                        (inject_Z (Z.of_nat (length chunk))) ;;
  math_sqrt mean.

(** The body of the [for] loop, run over the indices that [range] yields;
    [envelope] is the list built so far. *)
Fixpoint envelope_loop (samples : list Q) (sample_rate window : Z)
    (indices : list Z) (envelope : list (Q * Q)) : result (list (Q * Q)) :=
  match indices with
  | [] => Ok envelope
  | i :: rest =>
      let chunk := Py.slice samples i (i + window) in
      if (length chunk =? 0)%nat then Ok envelope (* break *)
      else
        r <- rms chunk ;;
        time <- int_truediv fl i sample_rate ;;
        envelope_loop samples sample_rate window rest (envelope ++ [(time, r)])
  end.

Definition calculate_energy_envelope (samples : list Q) (sample_rate : Z)
    (window_ms : Q) : result (list (Q * Q)) :=
  window <- window_samples sample_rate window_ms ;;
  indices <- Py.range 0 (Z.of_nat (length samples)) window ;;
  envelope_loop samples sample_rate window indices [].

End Envelope.

(** ** [detect_onsets] *)

(** The two variables the scan updates. *)
Record scan_state : Type := {
  onsets : list (Q * Q);
  last_onset_time : Q
}.

(** [onsets = []; last_onset_time = -1.0]. *)
Definition scan_init : scan_state :=
  {| onsets := []; last_onset_time := -1 |}.

Section Onsets.

Variable fl : Q -> Q.

(** The defaults of [threshold_factor] and [min_distance_ms]: the literal
    [0.15] is the double nearest to 15/100, and [60] is an [int]. *)
Definition default_threshold_factor : number := PyFloat (fl (15 # 100)).
Definition default_min_distance_ms : number := PyInt 60.

(** The test of the loop body. *)
Definition qualifies (threshold min_distance_s last : Q) (p : Q * Q) : bool :=
  Py.gt (snd p) threshold && Py.gt (fsub fl (fst p) last) min_distance_s.

(** One iteration of the loop over the envelope. *)
Definition scan_step (threshold min_distance_s : Q) (st : scan_state)
    (p : Q * Q) : scan_state :=
  if qualifies threshold min_distance_s (last_onset_time st) p
  then {| onsets := onsets st ++ [p]; last_onset_time := fst p |}
  else st.

Definition scan (threshold min_distance_s : Q) (envelope : list (Q * Q))
    (st : scan_state) : scan_state :=
  fold_left (scan_step threshold min_distance_s) envelope st.

(** A threshold beyond the doubles is an infinity in Python and a large
    rational here; both are above every finite energy, and the threshold
    is only ever compared. *)
Definition detect_onsets (envelope : list (Q * Q))
    (threshold_factor min_distance_ms : number) : result (list (Q * Q)) :=
  match envelope with
  | [] => Ok []
  | _ =>
      max_energy <- Py.max (map snd envelope) ;;
      factor <- to_float fl threshold_factor ;;
      let threshold := fmul fl max_energy factor in
      distance <- to_float fl min_distance_ms ;;
      let min_distance_s := fdiv fl distance 1000 in
      Ok (onsets (scan threshold min_distance_s envelope scan_init))
  end.

End Onsets.

(** ** [main] *)

(** [sorted(envelope, key=lambda x: x[1], reverse=True)[:n]]; [main] takes
    [n = 20]. *)
Definition top_peaks (n : Z) (envelope : list (Q * Q)) : list (Q * Q) :=
  Py.slice (Py.sorted_reverse snd envelope) 0 n.

Definition main_peaks (envelope : list (Q * Q)) : list (Q * Q) :=
  top_peaks 20 envelope.

(** What [main] computes and prints: the header lines, one entry per swept
    factor (the factor, the absolute threshold, the onsets) and the peak
    list. *)
Record report : Type := {
  report_sample_rate : Z;
  report_duration : Q;
  report_num_samples : nat;
  report_max_energy : Q;
  report_sweep : list (Q * Q * list (Q * Q));
  report_peaks : list (Q * Q)
}.

Section Main.

Variable fl : Q -> Q.
Variable unpack_f : nat -> list byte -> result (list Q).
Variable sqrt : Q -> Q.

(** The factors [main] sweeps: the doubles nearest to the literals. *)
Definition sweep_factors : list Q :=
  map fl [5 # 100; 10 # 100; 15 # 100; 20 # 100; 25 # 100; 30 # 100].

(** The loop [for thresh_factor in [...]], each run with
    [min_distance_ms=60]. *)
Fixpoint sweep_loop (envelope : list (Q * Q)) (max_energy : Q)
    (factors : list Q) : result (list (Q * Q * list (Q * Q))) :=
  match factors with
  | [] => Ok []
  | thresh_factor :: rest =>
      found <- detect_onsets fl envelope (PyFloat thresh_factor) (PyInt 60) ;;
      more <- sweep_loop envelope max_energy rest ;;
      Ok ((thresh_factor, fmul fl max_energy thresh_factor, found) :: more)
  end.

(** [main], on the container that [wave.open] has opened. *)
Definition main (w : wav) : result report :=
  decoded <- read_wav unpack_f w ;;
  let samples := fst decoded in
  let sample_rate := snd decoded in
  duration <- int_truediv fl (Z.of_nat (length samples)) sample_rate ;;
  envelope <- calculate_energy_envelope fl sqrt samples sample_rate 5 ;;
  max_energy <- Py.max (map snd envelope) ;;
  swept <- sweep_loop envelope max_energy sweep_factors ;;
  Ok {| report_sample_rate := sample_rate;
        report_duration := duration;
        report_num_samples := length samples;
        report_max_energy := max_energy;
        report_sweep := swept;
        report_peaks := main_peaks envelope |}.

End Main.

(** ** Vocabulary of the specification *)

(** The laws of rounding that the properties rest on: rounding keeps the
    order, integers up to [2^53] are floats, in the normal range the
    relative error is at most [2^-53], and [2^53 + 1], which needs 54
    bits, is not rounded up. *)
Record rounding (fl : Q -> Q) : Prop := {
  fl_mono : forall x y, x <= y -> fl x <= fl y;
  fl_int : forall z : Z, (Z.abs z <= 2 ^ 53)%Z -> fl (inject_Z z) == inject_Z z;
  fl_accurate : forall x,
      2 ^ (-1022) <= Qabs x -> Qabs (fl x - x) <= (1 # 2 ^ 53) * Qabs x;
  fl_precision : fl (inject_Z (2 ^ 53 + 1)) <= inject_Z (2 ^ 53)
}.

(** [x] is a float: rounding leaves it alone. *)
Definition is_float (fl : Q -> Q) (x : Q) : Prop := fl x == x.

(** The two invariants the data model puts on an envelope: timestamps in
    non-decreasing order and energies that are not negative. *)
Definition time_ordered (envelope : list (Q * Q)) : Prop :=
  StronglySorted (fun p q => fst p <= fst q) envelope.

Definition energies_nonneg (envelope : list (Q * Q)) : Prop :=
  Forall (fun p => 0 <= snd p) envelope.

(** Consecutive events are more than [d] seconds apart. *)
Definition refractory (d : Q) (events : list (Q * Q)) : Prop :=
  Sorted (fun p q => d < fst q - fst p) events.

(** Timestamps strictly increase along the list. *)
Definition strictly_ascending (events : list (Q * Q)) : Prop :=
  StronglySorted (fun p q => fst p < fst q) events.

(** The time of the latest accepted onset, or the sentinel when there is
    none yet. *)
Definition latest_onset (events : list (Q * Q)) : Q :=
  last (map fst events) (-1).

(** What the loop of [detect_onsets] maintains: the events so far respect
    the minimum distance [d], and [last_onset_time] is the time of the
    latest of them. *)
Definition scan_inv (d : Q) (st : scan_state) : Prop :=
  refractory d (onsets st) /\ last_onset_time st = latest_onset (onsets st).

(** The events a scan adds when it starts with [last] as last onset time:
    the loop of [detect_onsets] as a recursion on the envelope. *)
Fixpoint picked (fl : Q -> Q) (thr d last : Q) (envelope : list (Q * Q))
    : list (Q * Q) :=
  match envelope with
  | [] => []
  | p :: rest =>
      if qualifies fl thr d last p then p :: picked fl thr d (fst p) rest
      else picked fl thr d last rest
  end.

(** The mean of the squares of a window as the script computes it, and the
    envelope point of the window that starts at sample [i]: its start
    index over the sample rate, and the root of its mean square. *)
Definition mean_square (fl : Q -> Q) (chunk : list Q) : Q :=
  fdiv fl (fsum fl (map (fun s => fmul fl s s) chunk))
       (inject_Z (Z.of_nat (length chunk))).

Definition window_point (fl sqrt : Q -> Q) (samples : list Q)
    (sample_rate window : Z) (i : Z) : Q * Q :=
  (fl (inject_Z i / inject_Z sample_rate),
   sqrt (mean_square fl (Py.slice samples i (i + window)))).

(** What a stable descending sort by [key] establishes on a list that was
    in [before] order: greater key first and, with equal keys, the original
    order. *)
Definition stable_desc {A : Type} (key : A -> Q) (before : A -> A -> Prop)
    (x y : A) : Prop :=
  key y < key x \/ (key x == key y /\ before x y).

(** The order of the peak report: higher energy first, and among points
    of equal energy the earlier timestamp first. *)
Definition ranks_before : Q * Q -> Q * Q -> Prop :=
  stable_desc snd (fun p q => fst p <= fst q).

(** [s] is [l] with some elements left out, the order kept. *)
Inductive subseq {A : Type} : list A -> list A -> Prop :=
| subseq_nil : subseq [] []
| subseq_skip (x : A) (s l : list A) : subseq s l -> subseq s (x :: l)
| subseq_take (x : A) (s l : list A) : subseq s l -> subseq (x :: s) (x :: l).

(** A selection of events that respects the minimum distance [d] as the
    script measures it, the first one counted from [last]. *)
Fixpoint spaced (fl : Q -> Q) (d last : Q) (events : list (Q * Q)) : Prop :=
  match events with
  | [] => True
  | p :: rest => d < fsub fl (fst p) last /\ spaced fl d (fst p) rest
  end.


(** * Properties *)

(** ** Comparisons *)

Lemma gt_true (x y : Q) : Py.gt x y = true <-> y < x.
Proof.
  unfold Py.gt. rewrite (Qgt_alt x y).
  destruct (x ?= y); split; congruence.
Qed.

Lemma gt_false (x y : Q) : Py.gt x y = false <-> x <= y.
Proof.
  rewrite <- not_true_iff_false, gt_true. split.
  - apply Qnot_lt_le.
  - apply Qle_not_lt.
Qed.

Lemma gt_congr (a b a' b' : Q) :
  (b < a <-> b' < a') -> Py.gt a b = Py.gt a' b'.
Proof.
  intros H. destruct (Py.gt a' b') eqn:E.
  - apply gt_true. apply H. now apply gt_true.
  - apply not_true_iff_false. intros Habs. apply gt_true, H, gt_true in Habs.
    congruence.
Qed.

Lemma qualifies_true (fl : Q -> Q) (thr d last : Q) (p : Q * Q) :
  qualifies fl thr d last p = true
  <-> thr < snd p /\ d < fsub fl (fst p) last.
Proof.
  unfold qualifies. now rewrite andb_true_iff, !gt_true.
Qed.

(** ** [round64] obeys the laws of rounding *)

Lemma rne_bounds (q : Q) : (Qfloor q <= rne q <= Qfloor q + 1)%Z.
Proof.
  unfold rne. destruct (Qcompare (q - inject_Z (Qfloor q)) (1 # 2));
    [destruct (Z.even (Qfloor q)) | |]; lia.
Qed.

Lemma rne_mono (q1 q2 : Q) : q1 <= q2 -> (rne q1 <= rne q2)%Z.
Proof.
  intros H. pose proof (Qfloor_resp_le _ _ H) as Hf.
  destruct (Z.eq_dec (Qfloor q1) (Qfloor q2)) as [E | E].
  - unfold rne. rewrite E.
    destruct (Qcompare (q1 - inject_Z (Qfloor q2)) (1 # 2)) eqn:C1;
      destruct (Qcompare (q2 - inject_Z (Qfloor q2)) (1 # 2)) eqn:C2;
      try (destruct (Z.even (Qfloor q2))); try lia; exfalso;
      first [apply Qeq_alt in C1 | apply Qlt_alt in C1 | apply Qgt_alt in C1];
      first [apply Qeq_alt in C2 | apply Qlt_alt in C2 | apply Qgt_alt in C2];
      lra.
  - pose proof (rne_bounds q1). pose proof (rne_bounds q2). lia.
Qed.

Lemma rne_int (z : Z) : rne (inject_Z z) = z.
Proof.
  unfold rne. rewrite Qfloor_Z.
  destruct (Qcompare (inject_Z z - inject_Z z) (1 # 2)) eqn:C.
  - apply Qeq_alt in C. lra.
  - reflexivity.
  - apply Qgt_alt in C. lra.
Qed.

Lemma rne_eq (q : Q) (z : Z) : q == inject_Z z -> rne q = z.
Proof.
  intros H. apply Z.le_antisymm.
  - rewrite <- (rne_int z). apply rne_mono. rewrite H. apply Qle_refl.
  - rewrite <- (rne_int z) at 1. apply rne_mono. rewrite H. apply Qle_refl.
Qed.

Lemma pow2_pos (e : Z) : 0 < 2 ^ e.
Proof. now apply Qpower_0_lt. Qed.

Lemma pow2_le (a b : Z) : (a <= b)%Z -> 2 ^ a <= 2 ^ b.
Proof. intros H. now apply Qpower_le_compat_l. Qed.

Lemma pow2_lt_inv (a b : Z) : 2 ^ a < 2 ^ b -> (a < b)%Z.
Proof. intros H. now apply (Qpower_lt_compat_l_inv 2). Qed.

Lemma pow2_Z (n : Z) : (0 <= n)%Z -> inject_Z (2 ^ n) == 2 ^ n.
Proof. intros H. now rewrite Zpower_Qpower. Qed.

Lemma pow2_add (a b : Z) : 2 ^ (a + b) == 2 ^ a * 2 ^ b.
Proof. now apply Qpower_plus. Qed.

Lemma pow2_opp (a : Z) : 2 ^ (- a) == / 2 ^ a.
Proof. apply Qpower_opp. Qed.

Lemma ilog2_spec (x : Q) :
  0 < x -> 2 ^ ilog2 x <= x /\ x < 2 ^ (ilog2 x + 1).
Proof.
  intros Hx. unfold ilog2. destruct (Qle_bool 1 x) eqn:E.
  - apply Qle_bool_iff in E.
    assert (Hn : (1 <= Qfloor x)%Z).
    { rewrite <- (Qfloor_Z 1). now apply Qfloor_resp_le. }
    destruct (Z.log2_spec (Qfloor x)) as [Hlo Hhi]; [lia |].
    pose proof (Z.log2_nonneg (Qfloor x)) as Hl.
    split.
    + rewrite <- pow2_Z by exact Hl.
      apply Qle_trans with (inject_Z (Qfloor x)); [| apply Qfloor_le].
      now rewrite <- Zle_Qle.
    + rewrite <- pow2_Z by lia.
      apply Qlt_le_trans with (inject_Z (Qfloor x + 1)); [apply Qlt_floor |].
      rewrite <- Zle_Qle. unfold Z.succ in Hhi. lia.
  - assert (Hx1 : x < 1).
    { apply Qnot_le_lt. intros H. apply Qle_bool_iff in H. congruence. }
    assert (Hy : 0 < / x) by now apply Qinv_lt_0_compat.
    assert (Hy1 : 1 < / x).
    { apply Qlt_shift_inv_l; [exact Hx | lra]. }
    assert (Hxy : x * / x == 1) by (apply Qmult_inv_r; lra).
    set (c := Qceiling (/ x)).
    assert (Hc : (1 < c)%Z).
    { pose proof (Qle_ceiling (/ x)) as H. fold c in H.
      rewrite Zlt_Qlt. change (inject_Z 1) with 1. lra. }
    destruct (Z.log2_up_spec c Hc) as [Hlo Hhi].
    pose proof (Z.log2_up_nonneg c) as Hk.
    assert (Hk1 : (1 <= Z.log2_up c)%Z).
    { destruct (Z.eq_dec (Z.log2_up c) 0) as [E0 | E0]; [| lia].
      rewrite E0 in Hhi. cbn in Hhi. lia. }
    split.
    + rewrite pow2_opp. apply Qle_shift_inv_r; [apply pow2_pos |].
      rewrite <- pow2_Z by exact Hk.
      apply Qle_trans with (x * inject_Z c).
      * pose proof (Qle_ceiling (/ x)) as H. fold c in H.
        apply Qle_trans with (x * / x); [rewrite Hxy; apply Qle_refl |].
        now apply Qmult_le_l.
      * apply Qmult_le_l; [exact Hx |]. now rewrite <- Zle_Qle.
    + replace (- Z.log2_up c + 1)%Z with (- (Z.log2_up c - 1))%Z by lia.
      rewrite pow2_opp.
      assert (Hp : 0 < 2 ^ (Z.log2_up c - 1)) by apply pow2_pos.
      assert (Hlt : 2 ^ (Z.log2_up c - 1) < / x).
      { rewrite <- pow2_Z by lia.
        apply Qle_lt_trans with (inject_Z (c - 1)).
        - rewrite <- Zle_Qle.
          replace (Z.log2_up c - 1)%Z with (Z.pred (Z.log2_up c)) by lia. lia.
        - apply Qceiling_lt. }
      apply Qlt_shift_inv_l; [exact Hp |].
      apply Qlt_le_trans with (x * / x); [| rewrite Hxy; apply Qle_refl].
      now apply Qmult_lt_l.
Qed.

Lemma ilog2_mono (x y : Q) : 0 < x -> x <= y -> (ilog2 x <= ilog2 y)%Z.
Proof.
  intros Hx Hxy.
  destruct (ilog2_spec x Hx) as [Hlo _].
  destruct (ilog2_spec y) as [_ Hhi]; [lra |].
  assert (H : 2 ^ ilog2 x < 2 ^ (ilog2 y + 1)) by lra.
  apply pow2_lt_inv in H. lia.
Qed.

Lemma ulp_exp_mono (x y : Q) : 0 < x -> x <= y -> (ulp_exp x <= ulp_exp y)%Z.
Proof.
  intros Hx Hxy. unfold ulp_exp. pose proof (ilog2_mono x y Hx Hxy). lia.
Qed.

Lemma scaled_lt (x : Q) : 0 < x -> x / 2 ^ ulp_exp x < 2 ^ 53.
Proof.
  intros Hx. apply Qlt_shift_div_r; [apply pow2_pos |].
  rewrite <- pow2_add. destruct (ilog2_spec x Hx) as [_ Hhi].
  apply Qlt_le_trans with (2 ^ (ilog2 x + 1)); [exact Hhi |].
  apply pow2_le. unfold ulp_exp. lia.
Qed.

Lemma scaled_ge (x : Q) :
  0 < x -> (-1074 < ulp_exp x)%Z -> 2 ^ 52 <= x / 2 ^ ulp_exp x.
Proof.
  intros Hx He. apply Qle_shift_div_l; [apply pow2_pos |].
  rewrite <- pow2_add. destruct (ilog2_spec x Hx) as [Hlo _].
  apply Qle_trans with (2 ^ ilog2 x); [| exact Hlo].
  apply pow2_le. unfold ulp_exp in *. lia.
Qed.

Lemma round_pos_nonneg (x : Q) : 0 < x -> 0 <= round_pos x.
Proof.
  intros Hx. unfold round_pos.
  apply Qmult_le_0_compat; [| apply Qlt_le_weak, pow2_pos].
  change 0 with (inject_Z 0). rewrite <- Zle_Qle.
  pose proof (rne_bounds (x / 2 ^ ulp_exp x)) as [Hlo _].
  assert (0 <= Qfloor (x / 2 ^ ulp_exp x))%Z; [| lia].
  rewrite <- (Qfloor_Z 0). apply Qfloor_resp_le.
  apply Qle_shift_div_l; [apply pow2_pos |].
  rewrite Qmult_0_l. now apply Qlt_le_weak.
Qed.

Lemma round_pos_mono (x y : Q) :
  0 < x -> x <= y -> round_pos x <= round_pos y.
Proof.
  intros Hx Hxy. assert (Hy : 0 < y) by lra.
  pose proof (ulp_exp_mono x y Hx Hxy) as He. unfold round_pos.
  destruct (Z.eq_dec (ulp_exp x) (ulp_exp y)) as [E | E].
  - rewrite E. apply Qmult_le_compat_r; [| apply Qlt_le_weak, pow2_pos].
    rewrite <- Zle_Qle. apply rne_mono.
    apply Qmult_le_compat_r; [exact Hxy |].
    apply Qlt_le_weak, Qinv_lt_0_compat, pow2_pos.
  - apply Qle_trans with (2 ^ 53 * 2 ^ ulp_exp x).
    + apply Qmult_le_compat_r; [| apply Qlt_le_weak, pow2_pos].
      rewrite <- (pow2_Z 53) by lia. rewrite <- Zle_Qle.
      pose proof (rne_bounds (x / 2 ^ ulp_exp x)) as [_ Hhi].
      assert (Qfloor (x / 2 ^ ulp_exp x) < 2 ^ 53)%Z; [| lia].
      rewrite Zlt_Qlt, (pow2_Z 53) by lia.
      apply Qle_lt_trans with (x / 2 ^ ulp_exp x);
        [apply Qfloor_le | now apply scaled_lt].
    + apply Qle_trans with (2 ^ 52 * 2 ^ ulp_exp y).
      * rewrite <- !pow2_add. apply pow2_le. lia.
      * apply Qmult_le_compat_r; [| apply Qlt_le_weak, pow2_pos].
        rewrite <- (pow2_Z 52) by lia. rewrite <- Zle_Qle.
        pose proof (rne_bounds (y / 2 ^ ulp_exp y)) as [Hlo _].
        assert (2 ^ 52 <= Qfloor (y / 2 ^ ulp_exp y))%Z; [| lia].
        rewrite <- (Qfloor_Z (2 ^ 52)). apply Qfloor_resp_le.
        rewrite (pow2_Z 52) by lia. apply scaled_ge; [exact Hy |].
        unfold ulp_exp in *. lia.
Qed.

Lemma round64_pos (x : Q) : 0 < x -> round64 x == round_pos x.
Proof.
  destruct x as [[| n | n] d]; intros Hx; try discriminate Hx.
  unfold round64. cbn [Qnum]. apply Qred_correct.
Qed.

Lemma round64_neg (x : Q) : x < 0 -> round64 x == - round_pos (- x).
Proof.
  destruct x as [[| n | n] d]; intros Hx; try discriminate Hx.
  unfold round64. cbn [Qnum]. apply Qred_correct.
Qed.

Lemma round64_zero (x : Q) : x == 0 -> round64 x = 0.
Proof.
  destruct x as [[| n | n] d]; intros Hx; try discriminate Hx. reflexivity.
Qed.

Lemma round64_mono (x y : Q) : x <= y -> round64 x <= round64 y.
Proof.
  intros Hxy.
  destruct (Q_dec x 0) as [[Hx | Hx] | Hx]; destruct (Q_dec y 0) as [[Hy | Hy] | Hy].
  - rewrite (round64_neg x Hx), (round64_neg y Hy).
    apply Qopp_le_compat, round_pos_mono; lra.
  - rewrite (round64_neg x Hx), (round64_pos y Hy).
    pose proof (round_pos_nonneg (- x)). pose proof (round_pos_nonneg y). lra.
  - rewrite (round64_neg x Hx), (round64_zero y Hy).
    pose proof (round_pos_nonneg (- x)). lra.
  - lra.
  - rewrite (round64_pos x Hx), (round64_pos y Hy). now apply round_pos_mono.
  - lra.
  - lra.
  - rewrite (round64_zero x Hx), (round64_pos y Hy).
    apply round_pos_nonneg. exact Hy.
  - rewrite (round64_zero x Hx), (round64_zero y Hy). apply Qle_refl.
Qed.

Lemma round_pos_int (z : Z) :
  (0 < z <= 2 ^ 53)%Z -> round_pos (inject_Z z) == inject_Z z.
Proof.
  intros Hz.
  assert (Hx : 0 < inject_Z z) by (change 0 with (inject_Z 0); rewrite <- Zlt_Qlt; lia).
  assert (Hlog : ilog2 (inject_Z z) = Z.log2 z).
  { unfold ilog2.
    assert (H : Qle_bool 1 (inject_Z z) = true).
    { apply Qle_bool_iff. change 1 with (inject_Z 1). rewrite <- Zle_Qle. lia. }
    now rewrite H, Qfloor_Z. }
  destruct (Z.log2_spec z) as [Hlo Hhi]; [lia |].
  pose proof (Z.log2_nonneg z) as Hl.
  assert (Hl53 : (Z.log2 z <= 53)%Z).
  { rewrite <- (Z.log2_pow2 53) by lia. apply Z.log2_le_mono. lia. }
  assert (He : ulp_exp (inject_Z z) = (Z.log2 z - 52)%Z).
  { unfold ulp_exp. rewrite Hlog. lia. }
  unfold round_pos. rewrite He.
  assert (Hk : exists k, inject_Z z / 2 ^ (Z.log2 z - 52) == inject_Z k).
  { destruct (Z.eq_dec (Z.log2 z) 53) as [E | E].
    - rewrite E in *. assert (z = 2 ^ 53)%Z as -> by lia.
      exists (2 ^ 52)%Z. reflexivity.
    - exists (z * 2 ^ (52 - Z.log2 z))%Z.
      replace (Z.log2 z - 52)%Z with (- (52 - Z.log2 z))%Z by lia.
      rewrite pow2_opp, inject_Z_mult, pow2_Z by lia.
      unfold Qdiv. now rewrite Qinv_involutive. }
  destruct Hk as [k Hk]. rewrite (rne_eq _ _ Hk), <- Hk.
  field. intros H. pose proof (pow2_pos (Z.log2 z - 52)). lra.
Qed.

Lemma round64_int (z : Z) :
  (Z.abs z <= 2 ^ 53)%Z -> round64 (inject_Z z) == inject_Z z.
Proof.
  intros Hz. destruct (Z.lt_trichotomy z 0) as [H | [H | H]].
  - rewrite round64_neg
      by (change 0 with (inject_Z 0); rewrite <- Zlt_Qlt; lia).
    change (- inject_Z z) with (inject_Z (- z)).
    rewrite round_pos_int by lia. rewrite inject_Z_opp. ring.
  - subst z. reflexivity.
  - rewrite round64_pos
      by (change 0 with (inject_Z 0); rewrite <- Zlt_Qlt; lia).
    apply round_pos_int. lia.
Qed.

Lemma rne_near (q : Q) : Qabs (inject_Z (rne q) - q) <= 1 # 2.
Proof.
  pose proof (Qfloor_le q) as Hlo. pose proof (Qlt_floor q) as Hhi.
  rewrite inject_Z_plus in Hhi. change (inject_Z 1) with 1 in Hhi.
  apply Qabs_Qle_condition. unfold rne.
  destruct (Qcompare (q - inject_Z (Qfloor q)) (1 # 2)) eqn:C.
  - apply Qeq_alt in C. destruct (Z.even (Qfloor q)).
    + split; lra.
    + rewrite inject_Z_plus. change (inject_Z 1) with 1. split; lra.
  - apply Qlt_alt in C. split; lra.
  - apply Qgt_alt in C. rewrite inject_Z_plus. change (inject_Z 1) with 1.
    split; lra.
Qed.

Lemma round_pos_near (x : Q) :
  0 < x -> Qabs (round_pos x - x) <= (1 # 2) * 2 ^ ulp_exp x.
Proof.
  intros Hx. unfold round_pos.
  set (e := ulp_exp x). pose proof (pow2_pos e) as Hp.
  assert (Hdiff : inject_Z (rne (x / 2 ^ e)) * 2 ^ e - x
                  == (inject_Z (rne (x / 2 ^ e)) - x / 2 ^ e) * 2 ^ e).
  { field. intros H. rewrite H in Hp. discriminate Hp. }
  rewrite Hdiff, Qabs_Qmult, (Qabs_pos (2 ^ e)) by now apply Qlt_le_weak.
  apply Qmult_le_compat_r; [apply rne_near | now apply Qlt_le_weak].
Qed.

Lemma round_pos_accurate (x : Q) :
  2 ^ (-1022) <= x -> Qabs (round_pos x - x) <= (1 # 2 ^ 53) * x.
Proof.
  intros Hx. assert (Hx0 : 0 < x).
  { apply Qlt_le_trans with (2 ^ (-1022)); [apply pow2_pos | exact Hx]. }
  apply Qle_trans with ((1 # 2) * 2 ^ ulp_exp x); [now apply round_pos_near |].
  destruct (ilog2_spec x Hx0) as [Hlo Hhi].
  assert (Hl : (-1022 <= ilog2 x)%Z).
  { assert (H : 2 ^ (-1022) < 2 ^ (ilog2 x + 1)) by lra.
    apply pow2_lt_inv in H. lia. }
  assert (He : ulp_exp x = (ilog2 x + -52)%Z) by (unfold ulp_exp; lia).
  rewrite He, pow2_add.
  assert (H52 : 2 ^ (-52) == 1 # 2 ^ 52) by reflexivity.
  rewrite H52.
  assert (Hhalf : (1 # 2) * (1 # 2 ^ 52) == 1 # 2 ^ 53) by reflexivity.
  rewrite (Qmult_comm (2 ^ ilog2 x)), Qmult_assoc, Hhalf.
  apply Qmult_le_l; [reflexivity | exact Hlo].
Qed.

Lemma round64_accurate (x : Q) :
  2 ^ (-1022) <= Qabs x ->
  Qabs (round64 x - x) <= (1 # 2 ^ 53) * Qabs x.
Proof.
  intros Hx. pose proof (pow2_pos (-1022)) as Hp.
  destruct (Q_dec x 0) as [[Hneg | Hpos] | Hzero].
  - rewrite (round64_neg x Hneg).
    rewrite (Qabs_neg x) in * by lra.
    assert (H : - round_pos (- x) - x == - (round_pos (- x) - - x)) by ring.
    rewrite H, Qabs_opp. now apply round_pos_accurate.
  - rewrite (round64_pos x Hpos).
    rewrite (Qabs_pos x) in * by lra. now apply round_pos_accurate.
  - rewrite Hzero in Hx. exfalso. apply (Qlt_irrefl 0).
    apply Qlt_le_trans with (2 ^ (-1022)); [exact Hp | exact Hx].
Qed.

(** The rounding of binary64 is a rounding. *)
Lemma round64_rounding : rounding round64.
Proof.
  constructor.
  - exact round64_mono.
  - exact round64_int.
  - exact round64_accurate.
  - vm_compute. discriminate.
Qed.

(** ** What the laws give *)

Section Laws.

Variable fl : Q -> Q.
Hypothesis fl_ok : rounding fl.

Lemma fl_eq (x y : Q) : x == y -> fl x == fl y.
Proof.
  intros H. apply Qle_antisym; apply (fl_mono fl fl_ok); rewrite H;
    apply Qle_refl.
Qed.

Lemma fl_of_int (x : Q) (z : Z) :
  (Z.abs z <= 2 ^ 53)%Z -> x == inject_Z z -> fl x == inject_Z z.
Proof.
  intros Hz Hx. rewrite (fl_eq _ _ Hx). now apply (fl_int fl fl_ok).
Qed.

Lemma fl_0 (x : Q) : x == 0 -> fl x == 0.
Proof. intros H. apply (fl_of_int x 0); [discriminate | exact H]. Qed.

Lemma fl_1 (x : Q) : x == 1 -> fl x == 1.
Proof. intros H. apply (fl_of_int x 1); [discriminate | exact H]. Qed.

Lemma fl_nonneg (x : Q) : 0 <= x -> 0 <= fl x.
Proof.
  intros H. rewrite <- (fl_0 0) by reflexivity. now apply (fl_mono fl fl_ok).
Qed.

Lemma fl_nonpos (x : Q) : x <= 0 -> fl x <= 0.
Proof.
  intros H. rewrite <- (fl_0 0) by reflexivity. now apply (fl_mono fl fl_ok).
Qed.

(** Rounding never creates an order: what is apart after rounding was
    apart before. *)
Lemma fl_lt_inv (x y : Q) : fl x < fl y -> x < y.
Proof.
  intros H. apply Qnot_le_lt. intros Hle.
  apply (fl_mono fl fl_ok) in Hle. lra.
Qed.

(** A float that exceeds a rounded value exceeds the value itself. *)
Lemma fl_lt_float (x e : Q) : is_float fl e -> fl x < e -> x < e.
Proof.
  intros He H. apply fl_lt_inv. unfold is_float in He. now rewrite He.
Qed.

Lemma fl_le_float (x e : Q) : is_float fl e -> e <= x -> e <= fl x.
Proof.
  intros He H. unfold is_float in He. rewrite <- He.
  now apply (fl_mono fl fl_ok).
Qed.

End Laws.

(** ** The square root on doubles *)

Lemma round64_nonneg (x : Q) : 0 <= x -> 0 <= round64 x.
Proof. apply (fl_nonneg round64 round64_rounding). Qed.

Lemma round64_le_1 (x : Q) : x <= 1 -> round64 x <= 1.
Proof.
  intros H. rewrite <- (fl_1 round64 round64_rounding 1) by reflexivity.
  now apply round64_mono.
Qed.

Lemma double_sqrt_zero (x : Q) : x == 0 -> double_sqrt x == 0.
Proof.
  destruct x as [[| n | n] d]; intros H; try discriminate H; reflexivity.
Qed.

Lemma sqrt_scale_Z : inject_Z (2 ^ 1100 * 2 ^ 1100) == 4 ^ 1100.
Proof.
  transitivity (inject_Z (4 ^ 1100)); [| now apply Zpower_Qpower].
  apply inject_Z_injective. rewrite <- Z.pow_mul_l. reflexivity.
Qed.

Lemma double_sqrt_range (x : Q) :
  0 <= double_sqrt x /\ (x <= 1 -> double_sqrt x <= 1).
Proof.
  unfold double_sqrt. destruct (Qnum x) eqn:En.
  - split; [apply Qle_refl | discriminate].
  - set (y := x * 4 ^ 1100). set (s := Z.sqrt (Qfloor y)).
    pose proof (Z.sqrt_nonneg (Qfloor y)) as Hs. fold s in Hs.
    assert (Hp : 0 < 2 ^ 1100) by apply pow2_pos.
    assert (Hp' : 0 < 2 ^ 1101) by apply pow2_pos.
    assert (Hpz : (0 < 2 ^ 1100)%Z) by (apply Z.pow_pos_nonneg; lia).
    assert (Hs0 : 0 <= inject_Z s)
      by (change 0 with (inject_Z 0); rewrite <- Zle_Qle; exact Hs).
    split.
    + destruct (Qeq_bool (inject_Z (s * s)) y); apply round64_nonneg.
      * apply Qle_shift_div_l; [exact Hp |]. now rewrite Qmult_0_l.
      * apply Qle_shift_div_l; [exact Hp' |]. rewrite Qmult_0_l.
        change 0 with (inject_Z 0). rewrite <- Zle_Qle. lia.
    + intros Hx1.
      assert (Hx0 : 0 < x).
      { destruct x as [n d]. cbn in En. subst n. reflexivity. }
      assert (Hy : y <= inject_Z (2 ^ 1100 * 2 ^ 1100)).
      { rewrite sqrt_scale_Z. unfold y.
        rewrite <- (Qmult_1_l (4 ^ 1100)) at 2.
        apply Qmult_le_compat_r; [exact Hx1 |].
        apply Qlt_le_weak. now apply Qpower_0_lt. }
      assert (Hfl : (Qfloor y <= 2 ^ 1100 * 2 ^ 1100)%Z).
      { rewrite <- (Qfloor_Z (2 ^ 1100 * 2 ^ 1100)). now apply Qfloor_resp_le. }
      assert (Hsle : (s <= 2 ^ 1100)%Z).
      { unfold s. rewrite <- (Z.sqrt_square (2 ^ 1100)) by lia.
        now apply Z.sqrt_le_mono. }
      destruct (Qeq_bool (inject_Z (s * s)) y) eqn:Eq; apply round64_le_1.
      * apply Qle_shift_div_r; [exact Hp |]. rewrite Qmult_1_l.
        rewrite <- (pow2_Z 1100) by lia. now rewrite <- Zle_Qle.
      * apply Qle_shift_div_r; [exact Hp' |]. rewrite Qmult_1_l.
        rewrite <- (pow2_Z 1101) by lia. rewrite <- Zle_Qle.
        assert (Hlt : (s < 2 ^ 1100)%Z).
        { destruct (Z.eq_dec s (2 ^ 1100)) as [E | E]; [| lia]. exfalso.
          assert (Hy0 : 0 <= y).
          { unfold y. apply Qmult_le_0_compat; [lra |].
            apply Qlt_le_weak. now apply Qpower_0_lt. }
          assert (Hf0 : (0 <= Qfloor y)%Z).
          { rewrite <- (Qfloor_Z 0). now apply Qfloor_resp_le. }
          destruct (Z.sqrt_spec (Qfloor y) Hf0) as [Hlo _]. fold s in Hlo.
          rewrite E in Hlo.
          assert (Hfy : Qfloor y = (2 ^ 1100 * 2 ^ 1100)%Z) by lia.
          assert (Heq : inject_Z (s * s) == y).
          { rewrite E. apply Qle_antisym; [| exact Hy].
            rewrite <- Hfy. apply Qfloor_le. }
          apply Qeq_bool_iff in Heq. congruence. }
        replace (2 ^ 1101)%Z with (2 * 2 ^ 1100)%Z
          by (rewrite <- Z.pow_succ_r by lia; reflexivity).
        lia.
  - split; [apply Qle_refl | discriminate].
Qed.

Lemma double_sqrt_nonneg (x : Q) : 0 <= x -> 0 <= double_sqrt x.
Proof. intros _. apply double_sqrt_range. Qed.

Lemma double_sqrt_unit (x : Q) :
  0 <= x -> x <= 1 -> 0 <= double_sqrt x /\ double_sqrt x <= 1.
Proof. intros _ H. split; [apply double_sqrt_range | now apply double_sqrt_range]. Qed.

(** ** Conversions and [max] *)

Lemma to_float_cases (fl : Q -> Q) (n : number) :
  (exists x, to_float fl n = Ok x) \/ to_float fl n = Err OverflowError.
Proof.
  destruct n as [z | x]; cbn [to_float].
  - destruct (overflows (fl (inject_Z z))); [now right | left; now eexists].
  - left. now eexists.
Qed.

Lemma double_max_above_2_53 : inject_Z (2 ^ 53) <= double_max.
Proof. unfold double_max. rewrite <- Zle_Qle. vm_compute. discriminate. Qed.

Lemma small_fits (x : Q) : Qabs x <= inject_Z (2 ^ 53) -> overflows x = false.
Proof.
  intros H. apply gt_false.
  apply Qle_trans with (inject_Z (2 ^ 53)); [exact H |].
  exact double_max_above_2_53.
Qed.

Lemma int_fits (x : Q) (z : Z) :
  (Z.abs z <= 2 ^ 53)%Z -> x == inject_Z z -> overflows x = false.
Proof.
  intros Hz Hx. apply small_fits. apply Qabs_Qle_condition. rewrite Hx.
  split.
  - change (- inject_Z (2 ^ 53)) with (inject_Z (- 2 ^ 53)).
    rewrite <- Zle_Qle. lia.
  - rewrite <- Zle_Qle. lia.
Qed.

(** A small [int] converts to itself. *)
Lemma to_float_small (fl : Q -> Q) (z : Z) :
  rounding fl -> (Z.abs z <= 2 ^ 53)%Z ->
  to_float fl (PyInt z) = Ok (fl (inject_Z z)) /\
  fl (inject_Z z) == inject_Z z.
Proof.
  intros Hfl Hz. pose proof (fl_int fl Hfl z Hz) as Hx.
  split; [| exact Hx]. cbn [to_float].
  now rewrite (int_fits _ z Hz Hx).
Qed.

Lemma fold_max_bound (rest : list Q) (x : Q) :
  let m := fold_left (fun m y => if Py.gt y m then y else m) rest x in
  x <= m /\ Forall (fun y => y <= m) rest.
Proof.
  revert x. induction rest as [| y rest IH]; intros x; cbn [fold_left].
  - split; [apply Qle_refl | constructor].
  - destruct (Py.gt y x) eqn:E.
    + apply gt_true in E. destruct (IH y) as [Hy Hall].
      split; [lra | now constructor].
    + apply gt_false in E. destruct (IH x) as [Hx Hall].
      split; [exact Hx | constructor; [lra | exact Hall]].
Qed.

Lemma max_upper_bound (xs : list Q) (m : Q) :
  Py.max xs = Ok m -> Forall (fun x => x <= m) xs.
Proof.
  destruct xs as [| x rest]; [discriminate |]. cbn [Py.max]. intros [= <-].
  destruct (fold_max_bound rest x) as [Hx Hall]. now constructor.
Qed.

Lemma max_in (xs : list Q) (m : Q) : Py.max xs = Ok m -> In m xs.
Proof.
  destruct xs as [| x rest]; [discriminate |]. cbn [Py.max]. intros [= <-].
  revert x. induction rest as [| y rest IH]; intros x; cbn [fold_left];
    [now left |].
  destruct (Py.gt y x).
  - destruct (IH y) as [<- | Hin]; [right; now left | right; now right].
  - destruct (IH x) as [<- | Hin]; [now left | right; now right].
Qed.

Lemma max_energy_bounds (envelope : list (Q * Q)) (m : Q) :
  Py.max (map snd envelope) = Ok m ->
  In m (map snd envelope) /\ Forall (fun p => snd p <= m) envelope.
Proof.
  intros Hm. split; [now apply max_in |].
  apply max_upper_bound in Hm. now rewrite Forall_map in Hm.
Qed.

(** ** The scan of [detect_onsets] *)

Section Scan.

Variable fl : Q -> Q.
Variables thr d : Q.

Lemma scan_cons (p : Q * Q) (l : list (Q * Q)) (st : scan_state) :
  scan fl thr d (p :: l) st = scan fl thr d l (scan_step fl thr d st p).
Proof. reflexivity. Qed.

Lemma scan_app (l1 l2 : list (Q * Q)) (st : scan_state) :
  scan fl thr d (l1 ++ l2) st = scan fl thr d l2 (scan fl thr d l1 st).
Proof. apply fold_left_app. Qed.

(** A step either leaves the state alone or appends the point and moves
    the last onset time to it. *)
Lemma scan_step_cases (st : scan_state) (p : Q * Q) :
  (qualifies fl thr d (last_onset_time st) p = true /\
   scan_step fl thr d st p
   = {| onsets := onsets st ++ [p]; last_onset_time := fst p |})
  \/
  (qualifies fl thr d (last_onset_time st) p = false /\
   scan_step fl thr d st p = st).
Proof.
  unfold scan_step. destruct (qualifies _ _ _ _ _); [left | right]; now split.
Qed.

(** The variable [last_onset_time] always holds the time of the latest
    event of [onsets]. *)
Lemma scan_step_latest (st : scan_state) (p : Q * Q) :
  last_onset_time st = latest_onset (onsets st) ->
  last_onset_time (scan_step fl thr d st p)
  = latest_onset (onsets (scan_step fl thr d st p)).
Proof.
  intros Hst. destruct (scan_step_cases st p) as [[_ ->] | [_ ->]]; [| exact Hst].
  unfold latest_onset. cbn [onsets last_onset_time].
  rewrite map_app. cbn [map]. now rewrite last_last.
Qed.

Lemma scan_latest (l : list (Q * Q)) (st : scan_state) :
  last_onset_time st = latest_onset (onsets st) ->
  last_onset_time (scan fl thr d l st)
  = latest_onset (onsets (scan fl thr d l st)).
Proof.
  revert st. induction l as [| p l IH]; intros st Hst; [exact Hst |].
  rewrite scan_cons. apply IH. now apply scan_step_latest.
Qed.

(** The output only grows. *)
Lemma scan_extends (l : list (Q * Q)) (st : scan_state) :
  exists rest, onsets (scan fl thr d l st) = onsets st ++ rest.
Proof.
  revert st. induction l as [| p l IH]; intros st.
  - exists []. now rewrite app_nil_r.
  - rewrite scan_cons. destruct (IH (scan_step fl thr d st p)) as [rest ->].
    destruct (scan_step_cases st p) as [[_ ->] | [_ ->]].
    + exists (p :: rest). cbn [onsets]. now rewrite <- app_assoc.
    + now exists rest.
Qed.

Lemma scan_picked (l : list (Q * Q)) (st : scan_state) :
  onsets (scan fl thr d l st)
  = onsets st ++ picked fl thr d (last_onset_time st) l.
Proof.
  revert st. induction l as [| p l IH]; intros st; cbn [picked].
  - now rewrite app_nil_r.
  - rewrite scan_cons, IH.
    destruct (scan_step_cases st p) as [[-> ->] | [-> ->]];
      cbn [onsets last_onset_time]; [| reflexivity].
    now rewrite <- app_assoc.
Qed.

End Scan.

(** [detect_onsets] on a non-empty envelope, once its two arguments have
    been converted. *)
Lemma detect_onsets_nonempty (fl : Q -> Q) (p : Q * Q) (l : list (Q * Q))
    (f d : number) (xf xd : Q) :
  to_float fl f = Ok xf -> to_float fl d = Ok xd ->
  exists m,
    Py.max (map snd (p :: l)) = Ok m /\
    detect_onsets fl (p :: l) f d
    = Ok (onsets (scan fl (fmul fl m xf) (fdiv fl xd 1000) (p :: l) scan_init)).
Proof.
  intros Hf Hd. eexists. split; [reflexivity |].
  unfold detect_onsets. cbn [Py.max map bind]. rewrite Hf. cbn [bind].
  rewrite Hd. reflexivity.
Qed.

Lemma detect_onsets_picked (fl : Q -> Q) (p : Q * Q) (l : list (Q * Q))
    (f d : Q) :
  exists m,
    Py.max (map snd (p :: l)) = Ok m /\ In m (map snd (p :: l)) /\
    detect_onsets fl (p :: l) (PyFloat f) (PyFloat d)
    = Ok (picked fl (fmul fl m f) (fdiv fl d 1000) (-1) (p :: l)).
Proof.
  destruct (detect_onsets_nonempty fl p l (PyFloat f) (PyFloat d) f d
              eq_refl eq_refl) as [m [Hm Hd]].
  exists m. split; [exact Hm | split; [now apply max_in |]].
  rewrite Hd, scan_picked. reflexivity.
Qed.

(** An [int] argument that converts behaves as the float it converts to. *)
Lemma detect_onsets_converted (fl : Q -> Q) (envelope : list (Q * Q))
    (f d : number) (xf xd : Q) :
  to_float fl f = Ok xf -> to_float fl d = Ok xd ->
  detect_onsets fl envelope f d
  = detect_onsets fl envelope (PyFloat xf) (PyFloat xd).
Proof.
  intros Hf Hd. destruct envelope as [| p l]; [reflexivity |].
  destruct (detect_onsets_nonempty fl p l f d xf xd Hf Hd) as [m [Hm ->]].
  destruct (detect_onsets_nonempty fl p l (PyFloat xf) (PyFloat xd) xf xd
              eq_refl eq_refl) as [m' [Hm' ->]].
  congruence.
Qed.

Lemma app_cons_nonempty {A : Type} (l1 l2 : list A) (x : A) : l1 ++ x :: l2 <> [].
Proof. now destruct l1. Qed.

Lemma app_one_neq {A : Type} (l : list A) (x : A) : l ++ [x] <> l.
Proof.
  intros H. apply (f_equal (@length A)) in H.
  rewrite length_app in H. cbn in H. lia.
Qed.

(** ** C1: the acceptance rule *)

(** C1.  Take any envelope, split at one of its points [(t, e)], and any
    configuration whose two arguments convert to floats.  [maxEnergy] is
    the greatest energy of the envelope, [absoluteThreshold] the float
    product [maxEnergy * thresholdFactor], [minDistanceS] the float
    quotient [minDistanceMs / 1000], and [last] the time of the latest
    onset accepted before the point (the sentinel if none).  The point is
    appended to the output if and only if [e > absoluteThreshold] and the
    float difference [t - last] is [> minDistanceS], both strictly.  When
    it is appended it becomes the new last onset time; otherwise nothing
    changes, in particular when [e] equals the threshold or the difference
    equals [minDistanceS].  The scan of the rest of the envelope starts
    from there and only appends, and its output is what [detect_onsets]
    returns. *)
Theorem detect_onsets_acceptance_rule (fl : Q -> Q)
    (pre post : list (Q * Q)) (t e : Q)
    (threshold_factor min_distance_ms : number) (factor distance : Q) :
  to_float fl threshold_factor = Ok factor ->
  to_float fl min_distance_ms = Ok distance ->
  let envelope := pre ++ (t, e) :: post in
  exists max_energy,
    Py.max (map snd envelope) = Ok max_energy /\
    In max_energy (map snd envelope) /\
    Forall (fun p => snd p <= max_energy) envelope /\
    let absolute_threshold := fmul fl max_energy factor in
    let min_distance_s := fdiv fl distance 1000 in
    let before := scan fl absolute_threshold min_distance_s pre scan_init in
    let after :=
      scan fl absolute_threshold min_distance_s (pre ++ [(t, e)]) scan_init in
    let last := last_onset_time before in
    last = latest_onset (onsets before) /\
    (onsets after = onsets before ++ [(t, e)]
     <-> absolute_threshold < e /\ min_distance_s < fsub fl t last) /\
    (absolute_threshold < e /\ min_distance_s < fsub fl t last ->
     last_onset_time after = t) /\
    (~ (absolute_threshold < e /\ min_distance_s < fsub fl t last) ->
     after = before) /\
    (e == absolute_threshold -> after = before) /\
    (fsub fl t last == min_distance_s -> after = before) /\
    detect_onsets fl envelope threshold_factor min_distance_ms
    = Ok (onsets (scan fl absolute_threshold min_distance_s post after)) /\
    exists rest,
      onsets (scan fl absolute_threshold min_distance_s post after)
      = onsets after ++ rest.
Proof.
  intros Hf Hd envelope. subst envelope.
  destruct (pre ++ (t, e) :: post) as [| p0 l0] eqn:Henv.
  { exfalso. exact (app_cons_nonempty pre post (t, e) Henv). }
  destruct (detect_onsets_nonempty fl p0 l0 threshold_factor min_distance_ms
              factor distance Hf Hd) as [m [Hmax Hdet]].
  exists m. destruct (max_energy_bounds _ _ Hmax) as [Hin Hub].
  split; [exact Hmax | split; [exact Hin | split; [exact Hub |]]].
  intros thr ds before after last.
  assert (Hafter : after = scan_step fl thr ds before (t, e)).
  { unfold after. now rewrite scan_app. }
  assert (Hno : ~ (thr < e /\ ds < fsub fl t last) -> after = before).
  { intros Hn. rewrite Hafter.
    destruct (scan_step_cases fl thr ds before (t, e)) as [[Hq _] | [_ ->]];
      [| reflexivity].
    apply qualifies_true in Hq. now elim Hn. }
  assert (Hyes : thr < e /\ ds < fsub fl t last ->
                 after = {| onsets := onsets before ++ [(t, e)];
                            last_onset_time := t |}).
  { intros Hy. rewrite Hafter.
    destruct (scan_step_cases fl thr ds before (t, e)) as [[_ ->] | [Hq _]];
      [reflexivity |].
    apply (proj2 (qualifies_true fl thr ds last (t, e))) in Hy.
    fold last in Hq. congruence. }
  split; [| split; [| split; [| split; [| split; [| split; [| split]]]]]].
  - unfold last, before. now apply scan_latest.
  - split; [| intros Hy; now rewrite Hyes].
    intros Happ.
    destruct (Qlt_le_dec thr e) as [He | He];
      [destruct (Qlt_le_dec ds (fsub fl t last)) as [Ht | Ht]; [now split |] |].
    + rewrite Hno in Happ by (intros [_ H]; revert H; now apply Qle_not_lt).
      symmetry in Happ. now apply app_one_neq in Happ.
    + rewrite Hno in Happ by (intros [H _]; revert H; now apply Qle_not_lt).
      symmetry in Happ. now apply app_one_neq in Happ.
  - intros Hy. now rewrite Hyes.
  - exact Hno.
  - intros Heq. apply Hno. intros [H _]. rewrite Heq in H.
    exact (Qlt_irrefl _ H).
  - intros Heq. apply Hno. intros [_ H]. rewrite Heq in H.
    exact (Qlt_irrefl _ H).
  - rewrite Hdet, <- Henv.
    replace (pre ++ (t, e) :: post) with ((pre ++ [(t, e)]) ++ post)
      by now rewrite <- app_assoc.
    now rewrite scan_app.
  - apply scan_extends.
Qed.

Lemma detect_onsets_acceptance_rule_witness :
  to_float round64 (PyFloat (1 # 2)) = Ok (1 # 2) /\
  to_float round64 (PyInt 60) = Ok 60 /\
  exists max_energy,
    Py.max (map snd ([(0, 1 # 4)] ++ (1 # 2, 1) :: [(1, 3 # 4)])) = Ok max_energy /\
    detect_onsets round64 ([(0, 1 # 4)] ++ (1 # 2, 1) :: [(1, 3 # 4)])
      (PyFloat (1 # 2)) (PyInt 60)
    = Ok (onsets (scan round64 (fmul round64 max_energy (1 # 2))
                    (fdiv round64 60 1000) [(1, 3 # 4)]
                    (scan round64 (fmul round64 max_energy (1 # 2))
                       (fdiv round64 60 1000) ([(0, 1 # 4)] ++ [(1 # 2, 1)])
                       scan_init))).
Proof.
  assert (Hf : to_float round64 (PyFloat (1 # 2)) = Ok (1 # 2)) by reflexivity.
  assert (Hd : to_float round64 (PyInt 60) = Ok 60) by (vm_compute; reflexivity).
  split; [exact Hf | split; [exact Hd |]].
  destruct (detect_onsets_acceptance_rule round64 [(0, 1 # 4)] [(1, 3 # 4)]
              (1 # 2) 1 (PyFloat (1 # 2)) (PyInt 60) (1 # 2) 60 Hf Hd)
    as [m [Hm [_ [_ [_ [_ [_ [_ [_ [_ [Hdet _]]]]]]]]]]].
  exists m. split; [exact Hm | exact Hdet].
Defined.

(** ** C10: when [detect_onsets] returns *)


(** The same on line 51, for the threshold factor. *)
Lemma detect_onsets_huge_factor_raises :
  detect_onsets round64 [(0, 1)] (PyInt (10 ^ 400)) (PyInt 60)
  = Err OverflowError.
Proof. vm_compute. reflexivity. Qed.


(** ** C6: the refractory invariant *)

Lemma Sorted_snoc {A : Type} (R : A -> A -> Prop) (l : list A) (p : A) :
  Sorted R l ->
  (forall l' q, l = l' ++ [q] -> R q p) ->
  Sorted R (l ++ [p]).
Proof.
  induction l as [| a l IH]; intros Hs Hlast; cbn.
  - repeat constructor.
  - inversion Hs as [| ? ? Hs' Hhd]; subst. constructor.
    + apply IH; [exact Hs' |]. intros l' q ->. now apply (Hlast (a :: l')).
    + destruct l as [| b l]; cbn.
      * constructor. now apply (Hlast []).
      * inversion Hhd; subst. now constructor.
Qed.

Lemma Sorted_weaken {A : Type} (R S : A -> A -> Prop) (l : list A) :
  (forall x y, R x y -> S x y) -> Sorted R l -> Sorted S l.
Proof.
  intros HRS. induction 1 as [| a l _ IH Hhd]; constructor; [exact IH |].
  destruct Hhd; constructor. now apply HRS.
Qed.

Lemma latest_onset_snoc (l : list (Q * Q)) (q : Q * Q) :
  latest_onset (l ++ [q]) = fst q.
Proof. unfold latest_onset. rewrite map_app. cbn [map]. apply last_last. Qed.

Section ScanRefractory.

Variable fl : Q -> Q.
Hypothesis fl_ok : rounding fl.
Variables thr d : Q.

(** The script compares the rounded difference with the rounded minimum
    distance [fl (d / 1000)]; since rounding keeps the order, the exact
    difference then exceeds the exact [d / 1000]. *)
Lemma scan_inv_init : scan_inv (d / 1000) scan_init.
Proof. split; [constructor | reflexivity]. Qed.

Lemma scan_inv_step (st : scan_state) (p : Q * Q) :
  scan_inv (d / 1000) st ->
  scan_inv (d / 1000) (scan_step fl thr (fdiv fl d 1000) st p).
Proof.
  intros [Href Hlast]. split; [| now apply scan_step_latest].
  destruct (scan_step_cases fl thr (fdiv fl d 1000) st p)
    as [[Hq ->] | [_ ->]]; [| exact Href].
  apply qualifies_true in Hq as [_ Hgap]. cbn [onsets].
  apply (fl_lt_inv fl fl_ok) in Hgap.
  apply Sorted_snoc; [exact Href |].
  intros l' q Heq. rewrite Hlast, Heq, latest_onset_snoc in Hgap. exact Hgap.
Qed.

Lemma scan_inv_scan (l : list (Q * Q)) (st : scan_state) :
  scan_inv (d / 1000) st ->
  scan_inv (d / 1000) (scan fl thr (fdiv fl d 1000) l st).
Proof.
  revert st. induction l as [| p l IH]; intros st Hst; [exact Hst |].
  rewrite scan_cons. apply IH. now apply scan_inv_step.
Qed.

End ScanRefractory.

Lemma refractory_ascending (d : Q) (events : list (Q * Q)) :
  0 <= d -> refractory d events -> strictly_ascending events.
Proof.
  intros Hd Href. apply Sorted_StronglySorted.
  - intros x y z Hxy Hyz. now apply Qlt_trans with (fst y).
  - apply (Sorted_weaken (fun p q => d < fst q - fst p)); [| exact Href].
    intros x y Hxy. cbn beta in Hxy. lra.
Qed.

(** C6.  For every envelope and every configuration whose arguments are
    floats, or [int]s that convert to floats, [detect_onsets] returns
    events in which any two consecutive timestamps differ by strictly more
    than [min_distance_ms / 1000], as real numbers and therefore also as
    the script computes the difference and the quotient; for a minimum
    distance that is not negative the timestamps therefore strictly
    increase along the output. *)
Theorem detect_onsets_refractory (fl : Q -> Q)
    (envelope : list (Q * Q)) (threshold_factor min_distance_ms : number)
    (factor distance : Q) :
  rounding fl ->
  to_float fl threshold_factor = Ok factor ->
  to_float fl min_distance_ms = Ok distance ->
  exists out,
    detect_onsets fl envelope threshold_factor min_distance_ms = Ok out /\
    refractory (distance / 1000) out /\
    (0 <= distance -> strictly_ascending out).
Proof.
  intros Hfl Hf Hd.
  assert (Hout : exists out,
             detect_onsets fl envelope threshold_factor min_distance_ms = Ok out /\
             refractory (distance / 1000) out).
  { destruct envelope as [| p l].
    - exists []. split; [reflexivity | constructor].
    - destruct (detect_onsets_nonempty fl p l threshold_factor min_distance_ms
                  factor distance Hf Hd) as [m [_ ->]].
      eexists. split; [reflexivity |].
      apply (scan_inv_scan fl Hfl), scan_inv_init. }
  destruct Hout as [out [Hdet Href]]. exists out.
  split; [exact Hdet | split; [exact Href |]].
  intros H0. apply (refractory_ascending (distance / 1000)); [| exact Href].
  apply Qle_shift_div_l; [reflexivity | lra].
Qed.

Lemma detect_onsets_refractory_witness :
  rounding round64 /\
  to_float round64 (PyFloat (1 # 2)) = Ok (1 # 2) /\
  to_float round64 (PyInt 60) = Ok 60 /\
  0 <= 60 /\
  exists out,
    detect_onsets round64 [(0, 1); (1 # 32, 1); (1 # 8, 1)]
      (PyFloat (1 # 2)) (PyInt 60) = Ok out /\
    refractory (60 / 1000) out /\ strictly_ascending out.
Proof.
  assert (Hf : to_float round64 (PyFloat (1 # 2)) = Ok (1 # 2)) by reflexivity.
  assert (Hd : to_float round64 (PyInt 60) = Ok 60) by (vm_compute; reflexivity).
  assert (H0 : 0 <= 60) by discriminate.
  split; [exact round64_rounding | split; [exact Hf | split; [exact Hd |]]].
  split; [exact H0 |].
  destruct (detect_onsets_refractory round64 [(0, 1); (1 # 32, 1); (1 # 8, 1)]
              (PyFloat (1 # 2)) (PyInt 60) (1 # 2) 60 round64_rounding Hf Hd)
    as [out [Hdet [Href Hasc]]].
  exists out. split; [exact Hdet | split; [exact Href | exact (Hasc H0)]].
Defined.

(** ** C3: the sentinel and the first onset *)

Lemma picked_below_threshold (fl : Q -> Q) (thr d last : Q)
    (pre rest : list (Q * Q)) :
  Forall (fun p => snd p <= thr) pre ->
  picked fl thr d last (pre ++ rest) = picked fl thr d last rest.
Proof.
  induction 1 as [| p pre Hp _ IH]; [reflexivity |].
  cbn [app picked]. unfold qualifies.
  now rewrite (proj2 (gt_false (snd p) thr) Hp).
Qed.

(** With timestamps that are not negative and a computed minimum distance
    below one second, the sentinel does what it is meant to do: the first
    point above the threshold is the first onset. *)
Lemma detect_onsets_first_onset (fl : Q -> Q)
    (pre post : list (Q * Q)) (t e f d max_energy : Q) :
  rounding fl ->
  Py.max (map snd (pre ++ (t, e) :: post)) = Ok max_energy ->
  Forall (fun p => snd p <= fmul fl max_energy f) pre ->
  fmul fl max_energy f < e ->
  0 <= t -> fdiv fl d 1000 < 1 ->
  exists rest,
    detect_onsets fl (pre ++ (t, e) :: post) (PyFloat f) (PyFloat d)
    = Ok ((t, e) :: rest).
Proof.
  intros Hfl Hmax Hpre He Ht Hd.
  destruct (pre ++ (t, e) :: post) as [| p0 l0] eqn:Henv.
  { exfalso. exact (app_cons_nonempty pre post (t, e) Henv). }
  destruct (detect_onsets_picked fl p0 l0 f d) as [m [Hm [_ ->]]].
  assert (m = max_energy) as -> by congruence.
  rewrite <- Henv, picked_below_threshold by exact Hpre.
  cbn [picked].
  assert (Hq : qualifies fl (fmul fl max_energy f) (fdiv fl d 1000) (-1) (t, e)
               = true).
  { apply qualifies_true. cbn [fst snd]. split; [exact He |].
    apply Qlt_le_trans with 1; [exact Hd |].
    unfold fsub. apply (fl_le_float fl Hfl).
    - apply (fl_1 fl Hfl). reflexivity.
    - lra. }
  rewrite Hq. now eexists.
Qed.

(** C3.  The sentinel [-1.0] does not always let the first point above the
    threshold through: on the one-point envelope [(0.0, 1.0)] with
    [threshold_factor = 0.15] and [min_distance_ms = 1000], the point has
    energy 1.0 above the threshold 0.15, yet its distance to the sentinel
    is exactly 1.0, not more than the minimum distance 1.0, and
    [detect_onsets] returns no onset at all. *)
Theorem detect_onsets_sentinel_drops_first :
  Py.max (map snd [(0, 1)]) = Ok 1 /\
  fmul round64 1 (round64 (15 # 100)) < snd (0, 1) /\
  (0 <= 1000)%Z /\
  to_float round64 (PyInt 1000) = Ok 1000 /\
  fdiv round64 1000 1000 == 1 /\
  fsub round64 (fst (0, 1)) (-1) == 1 /\
  ~ (fdiv round64 1000 1000 < fsub round64 (fst (0, 1)) (-1)) /\
  detect_onsets round64 [(0, 1)] (PyFloat (round64 (15 # 100))) (PyInt 1000)
  = Ok [].
Proof.
  split; [reflexivity |].
  split; [vm_compute; reflexivity |].
  split; [lia |].
  split; [vm_compute; reflexivity |].
  split; [vm_compute; reflexivity |].
  split; [vm_compute; reflexivity |].
  split; [| vm_compute; reflexivity].
  vm_compute. intros H. discriminate H.
Qed.

(** ** C2: raising the threshold factor never adds onsets *)

Section Monotone.

Variable fl : Q -> Q.
Hypothesis fl_ok : rounding fl.
Variable d : Q.

(** Two scans of the same envelope, the second with the higher threshold.
    If the first starts from the earlier last onset time it accepts at
    least as many points; and whatever the second starts from, it gets
    ahead by at most one point as long as the envelope lies after the last
    onset time of the first. *)
Lemma picked_monotone (thr1 thr2 : Q) (l : list (Q * Q)) :
  thr1 <= thr2 ->
  time_ordered l ->
  forall last1 last2,
    (last1 <= last2 ->
     (length (picked fl thr2 d last2 l) <= length (picked fl thr1 d last1 l))%nat)
    /\
    (Forall (fun p => last1 <= fst p) l ->
     (length (picked fl thr2 d last2 l)
      <= S (length (picked fl thr1 d last1 l)))%nat).
Proof.
  intros Hthr. induction 1 as [| p l Hsorted IH Hp]; intros last1 last2.
  { split; intros _; cbn; lia. }
  assert (Hafter : Forall (fun q => fst p <= fst q) l) by exact Hp.
  cbn [picked].
  destruct (qualifies fl thr2 d last2 p) eqn:Hq2;
    destruct (qualifies fl thr1 d last1 p) eqn:Hq1; cbn [length].
  - (* accepted by both: both continue from [fst p] *)
    pose proof (proj1 (IH (fst p) (fst p)) (Qle_refl _)). split; intros _; lia.
  - (* accepted above only *)
    apply qualifies_true in Hq2 as [He Hgap]. split.
    + intros Hlast. exfalso.
      assert (Hq : qualifies fl thr1 d last1 p = true).
      { apply qualifies_true. split; [lra |].
        apply Qlt_le_trans with (fsub fl (fst p) last2); [exact Hgap |].
        apply (fl_mono fl fl_ok). lra. }
      congruence.
    + intros Hall. inversion Hall as [| ? ? Hp1 Hall']; subst.
      pose proof (proj1 (IH last1 (fst p)) Hp1). lia.
  - (* accepted below only *)
    pose proof (proj2 (IH (fst p) last2) Hafter). split; intros _; lia.
  - (* rejected by both *)
    split.
    + intros Hlast. exact (proj1 (IH last1 last2) Hlast).
    + intros Hall. inversion Hall; subst. now apply (proj2 (IH last1 last2)).
Qed.

End Monotone.

Lemma max_energy_nonneg (envelope : list (Q * Q)) (m : Q) :
  energies_nonneg envelope -> In m (map snd envelope) -> 0 <= m.
Proof.
  intros Hnn Hin. apply in_map_iff in Hin as [p [<- Hp]].
  unfold energies_nonneg in Hnn. rewrite Forall_forall in Hnn. now apply Hnn.
Qed.

(** The computed threshold does not fall when the factor rises. *)
Lemma threshold_monotone (fl : Q -> Q) (m f1 f2 : Q) :
  rounding fl -> 0 <= m -> f1 <= f2 -> fmul fl m f1 <= fmul fl m f2.
Proof. intros Hfl Hm Hf. apply (fl_mono fl Hfl). nra. Qed.

(** C2.  For an envelope as the data model has it (timestamps in
    non-decreasing order, energies not negative), a fixed
    [min_distance_ms] and two threshold factors [f1 < f2] (floats, or
    [int]s that convert), [detect_onsets] returns at least as many onsets
    at [f1] as at [f2]. *)
Theorem detect_onsets_threshold_monotone (fl : Q -> Q)
    (envelope : list (Q * Q)) (min_distance_ms f1 f2 : number)
    (distance factor1 factor2 : Q) :
  rounding fl ->
  to_float fl min_distance_ms = Ok distance ->
  to_float fl f1 = Ok factor1 ->
  to_float fl f2 = Ok factor2 ->
  time_ordered envelope ->
  energies_nonneg envelope ->
  factor1 < factor2 ->
  exists out1 out2,
    detect_onsets fl envelope f1 min_distance_ms = Ok out1 /\
    detect_onsets fl envelope f2 min_distance_ms = Ok out2 /\
    (length out2 <= length out1)%nat.
Proof.
  intros Hfl Hd Hf1 Hf2 Hsorted Hnn Hf.
  rewrite (detect_onsets_converted fl envelope f1 _ _ _ Hf1 Hd).
  rewrite (detect_onsets_converted fl envelope f2 _ _ _ Hf2 Hd).
  destruct envelope as [| p l].
  { exists [], []. repeat split; reflexivity. }
  destruct (detect_onsets_picked fl p l factor1 distance) as [m [Hm [Hin ->]]].
  destruct (detect_onsets_picked fl p l factor2 distance) as [m' [Hm' [_ ->]]].
  assert (m' = m) as -> by congruence.
  do 2 eexists. split; [reflexivity | split; [reflexivity |]].
  assert (Hm0 : 0 <= m) by exact (max_energy_nonneg _ _ Hnn Hin).
  assert (Hthr : fmul fl m factor1 <= fmul fl m factor2)
    by (apply threshold_monotone; [exact Hfl | exact Hm0 | lra]).
  exact (proj1 (picked_monotone fl Hfl (fdiv fl distance 1000) _ _ _ Hthr
                  Hsorted (-1) (-1)) (Qle_refl _)).
Qed.

Lemma detect_onsets_threshold_monotone_witness :
  let envelope := [(0, 1 # 4); (1 # 16, 1); (1 # 8, 1 # 2); (1 # 4, 1)] in
  rounding round64 /\
  to_float round64 (PyInt 60) = Ok 60 /\
  to_float round64 (PyFloat (1 # 8)) = Ok (1 # 8) /\
  to_float round64 (PyFloat (1 # 2)) = Ok (1 # 2) /\
  time_ordered envelope /\ energies_nonneg envelope /\ 1 # 8 < 1 # 2 /\
  exists out1 out2,
    detect_onsets round64 envelope (PyFloat (1 # 8)) (PyInt 60) = Ok out1 /\
    detect_onsets round64 envelope (PyFloat (1 # 2)) (PyInt 60) = Ok out2 /\
    (length out2 <= length out1)%nat.
Proof.
  intros envelope.
  assert (Hd : to_float round64 (PyInt 60) = Ok 60) by (vm_compute; reflexivity).
  assert (Hf1 : to_float round64 (PyFloat (1 # 8)) = Ok (1 # 8)) by reflexivity.
  assert (Hf2 : to_float round64 (PyFloat (1 # 2)) = Ok (1 # 2)) by reflexivity.
  assert (Hsorted : time_ordered envelope)
    by (repeat constructor; discriminate).
  assert (Hnn : energies_nonneg envelope)
    by (repeat constructor; discriminate).
  assert (Hf : 1 # 8 < 1 # 2) by reflexivity.
  split; [exact round64_rounding |].
  split; [exact Hd | split; [exact Hf1 | split; [exact Hf2 |]]].
  split; [exact Hsorted | split; [exact Hnn | split; [exact Hf |]]].
  exact (detect_onsets_threshold_monotone round64 envelope (PyInt 60)
           (PyFloat (1 # 8)) (PyFloat (1 # 2)) 60 (1 # 8) (1 # 2)
           round64_rounding Hd Hf1 Hf2 Hsorted Hnn Hf).
Defined.

(** The two invariants are needed.  Out of time order, a weak late point
    scanned first can shadow the strong points behind it. *)
Lemma threshold_monotone_needs_time_order :
  detect_onsets round64 [(10, 1 # 4); (0, 1); (1, 1)] (PyFloat (1 # 8))
    (PyInt 60) = Ok [(10, 1 # 4)] /\
  detect_onsets round64 [(10, 1 # 4); (0, 1); (1, 1)] (PyFloat (1 # 2))
    (PyInt 60) = Ok [(0, 1); (1, 1)].
Proof. split; vm_compute; reflexivity. Qed.

(** With a negative peak energy the threshold falls as the factor rises. *)
Lemma threshold_monotone_needs_nonneg_energy :
  detect_onsets round64 [(0, -1)] (PyFloat (1 # 2)) (PyInt 60) = Ok [] /\
  detect_onsets round64 [(0, -1)] (PyFloat 2) (PyInt 60) = Ok [(0, -1)].
Proof. split; vm_compute; reflexivity. Qed.

(** ** C4: decoding 16-bit samples *)

Lemma le_i16_range (b0 b1 : byte) : (-32768 <= Py.le_i16 b0 b1 <= 32767)%Z.
Proof.
  unfold Py.le_i16.
  pose proof (Byte.to_N_bounded b0). pose proof (Byte.to_N_bounded b1).
  destruct (Z.ltb_spec (Z.of_N (to_N b0) + 256 * Z.of_N (to_N b1)) 32768); lia.
Qed.

Lemma unpack_h_ok (n : nat) (buf : list byte) :
  length buf = (2 * n)%nat ->
  exists xs,
    Py.unpack_h n buf = Ok xs /\ length xs = n /\
    (forall k, (k < n)%nat ->
       nth_error xs k
       = Some (Py.le_i16 (nth (2 * k) buf x00) (nth (2 * k + 1) buf x00))) /\
    Forall (fun x => (-32768 <= x <= 32767)%Z) xs.
Proof.
  revert buf. induction n as [| n IH]; intros buf Hlen.
  - destruct buf; [| discriminate]. exists []. repeat split; [| constructor].
    intros k Hk. lia.
  - destruct buf as [| b0 [| b1 rest]]; try (cbn in Hlen; lia).
    destruct (IH rest) as [xs [Hxs [Hl [Hnth Hall]]]]; [cbn in Hlen; lia |].
    exists (Py.le_i16 b0 b1 :: xs). cbn [Py.unpack_h]. rewrite Hxs.
    split; [reflexivity | split; [cbn; now rewrite Hl | split]].
    + intros [| k] Hk; [reflexivity |].
      replace (2 * S k)%nat with (S (S (2 * k))) by lia.
      replace (S (S (2 * k)) + 1)%nat with (S (S (2 * k + 1))) by lia.
      cbn [nth_error nth]. apply Hnth. lia.
    + constructor; [apply le_i16_range | exact Hall].
Qed.

Lemma unpack_h_length (n : nat) (buf : list byte) (xs : list Z) :
  Py.unpack_h n buf = Ok xs -> length buf = (2 * n)%nat.
Proof.
  revert buf xs. induction n as [| n IH]; intros buf xs H.
  - destruct buf; [reflexivity | discriminate].
  - destruct buf as [| b0 [| b1 rest]]; try discriminate.
    cbn [Py.unpack_h] in H.
    destruct (Py.unpack_h n rest) as [ys |] eqn:Hrest; [| discriminate].
    apply IH in Hrest. cbn [length]. lia.
Qed.

Lemma sample_16bit_range (x : Z) :
  (-32768 <= x <= 32767)%Z ->
  -1 <= inject_Z x / 32768 /\ inject_Z x / 32768 < 1.
Proof.
  intros Hx. split.
  - apply Qle_shift_div_l; [reflexivity |]. unfold Qle. cbn. lia.
  - apply Qlt_shift_div_r; [reflexivity |]. unfold Qlt. cbn. lia.
Qed.

(** C4 as the specification words it fails: the group [00 80] is the
    integer -32768, which decodes to -1.0, outside (-1.0, 1.0]. *)
Lemma minus_one_is_decoded :
  exists s,
    read_wav (fun _ _ => Err StructError)
      {| getframerate := 44100; getnframes := 1; getsampwidth := 2;
         readframes := [x00; x80] |}
    = Ok ([s], 44100%Z) /\
    s == -1 /\ ~ (-1 < s /\ s <= 1).
Proof.
  eexists. split; [reflexivity | split; [reflexivity |]].
  intros [H _]. discriminate H.
Qed.

(** C4.  With a sample width of 2 and a buffer of [num_frames] groups of
    two bytes, [read_wav] returns [num_frames] samples and the frame rate;
    sample [k] is the signed 16-bit little-endian integer made of bytes
    [2k] and [2k+1], divided by 32768; and every sample lies in the closed
    range [-1.0, 1.0] (-1.0 itself is reached). *)
Theorem read_wav_16bit_range
    (unpack_f : nat -> list byte -> result (list Q)) (w : wav) :
  getsampwidth w = 2%Z ->
  length (readframes w) = (2 * getnframes w)%nat ->
  exists samples,
    read_wav unpack_f w = Ok (samples, getframerate w) /\
    length samples = getnframes w /\
    (forall k, (k < getnframes w)%nat ->
       nth_error samples k
       = Some (inject_Z (Py.le_i16 (nth (2 * k) (readframes w) x00)
                                   (nth (2 * k + 1) (readframes w) x00))
               / 32768)) /\
    Forall (fun s => -1 <= s /\ s <= 1) samples.
Proof.
  intros Hwidth Hlen.
  destruct (unpack_h_ok _ _ Hlen) as [xs [Hxs [Hl [Hnth Hall]]]].
  exists (map (fun s => inject_Z s / 32768) xs).
  unfold read_wav. rewrite Hwidth, Hxs. cbn [Z.eqb Pos.eqb bind].
  split; [reflexivity | split; [now rewrite length_map | split]].
  - intros k Hk. now rewrite nth_error_map, Hnth.
  - apply Forall_map. revert Hall. apply Forall_impl. intros x Hx.
    destruct (sample_16bit_range x Hx). split; [assumption | lra].
Qed.

(** The upper bound is never reached: 16-bit samples stay below 1.0. *)
Lemma samples_16bit_below_one
    (unpack_f : nat -> list byte -> result (list Q)) (w : wav)
    (samples : list Q) (rate : Z) :
  getsampwidth w = 2%Z ->
  read_wav unpack_f w = Ok (samples, rate) ->
  Forall (fun s => -1 <= s /\ s < 1) samples.
Proof.
  intros Hwidth. unfold read_wav. rewrite Hwidth. cbn [Z.eqb Pos.eqb].
  destruct (Py.unpack_h (getnframes w) (readframes w)) as [xs |] eqn:Hxs;
    [| discriminate].
  cbn [bind]. intros [= <- _].
  destruct (unpack_h_ok _ _ (unpack_h_length _ _ _ Hxs)) as [ys [Hys [_ [_ Hall]]]].
  assert (ys = xs) as -> by congruence.
  apply Forall_map. revert Hall. apply Forall_impl. exact sample_16bit_range.
Qed.

Lemma read_wav_16bit_range_witness :
  let w := {| getframerate := 8000; getnframes := 2; getsampwidth := 2;
              readframes := [x00; x80; xff; x7f] |} in
  getsampwidth w = 2%Z /\
  length (readframes w) = (2 * getnframes w)%nat /\
  exists samples,
    read_wav (fun _ _ => Err StructError) w = Ok (samples, getframerate w) /\
    length samples = getnframes w /\
    (forall k, (k < getnframes w)%nat ->
       nth_error samples k
       = Some (inject_Z (Py.le_i16 (nth (2 * k) (readframes w) x00)
                                   (nth (2 * k + 1) (readframes w) x00))
               / 32768)) /\
    Forall (fun s => -1 <= s /\ s <= 1) samples.
Proof.
  intros w. split; [reflexivity | split; [reflexivity |]].
  apply (read_wav_16bit_range (fun _ _ => Err StructError) w); reflexivity.
Defined.


(** ** [int] on floats *)

Lemma int_nonneg (x : Q) : 0 <= x -> Py.int x = Qfloor x.
Proof.
  destruct x as [n d]. unfold Qle, Qfloor, Py.int. cbn [Qnum Qden].
  intros H. apply Z.quot_div_nonneg; lia.
Qed.

Lemma int_nonpos (x : Q) : x <= 0 -> Py.int x = (- Qfloor (- x))%Z.
Proof.
  destruct x as [n d]. unfold Qle, Qfloor, Qopp, Py.int. cbn [Qnum Qden].
  intros H. rewrite <- (Z.opp_involutive n) at 1.
  rewrite Z.quot_opp_l by lia. f_equal. apply Z.quot_div_nonneg; lia.
Qed.

(** [int] does not depend on how the float is written as a fraction. *)
Lemma int_congr (x y : Q) : x == y -> Py.int x = Py.int y.
Proof.
  intros H. destruct (Qlt_le_dec x 0) as [Hx | Hx].
  - rewrite (int_nonpos x), (int_nonpos y) by lra. now rewrite H.
  - rewrite (int_nonneg x), (int_nonneg y) by lra. now rewrite H.
Qed.

Lemma int_of_Z (x : Q) (z : Z) : x == inject_Z z -> Py.int x = z.
Proof.
  intros H. rewrite (int_congr _ _ H). unfold Py.int. cbn [inject_Z Qnum Qden].
  apply Z.quot_1_r.
Qed.

Lemma int_of_floor_zero (x : Q) : Qfloor x = 0%Z -> Py.int x = 0%Z.
Proof.
  destruct x as [n d]. unfold Qfloor, Py.int. cbn [Qnum Qden]. intros H.
  apply Z.div_small_iff in H; [| lia].
  apply Z.quot_small. lia.
Qed.

Lemma int_mono_nonneg (x y : Q) : 0 <= x -> x <= y -> (Py.int x <= Py.int y)%Z.
Proof.
  intros Hx Hxy. rewrite (int_nonneg x), (int_nonneg y) by lra.
  now apply Qfloor_resp_le.
Qed.

(** ** The envelope loop *)

Lemma length_pos_neq0 (n : nat) :
  n <> 0%nat -> 0 < inject_Z (Z.of_nat n).
Proof. intros Hn. unfold Qlt. cbn. lia. Qed.

Lemma float_truediv_ok (fl : Q -> Q) (x y : Q) :
  ~ y == 0 -> float_truediv fl x y = Ok (fdiv fl x y).
Proof.
  intros Hy. unfold float_truediv.
  destruct (Qeq_bool y 0) eqn:E; [| reflexivity].
  now apply Qeq_bool_eq in E.
Qed.

Lemma int_truediv_ok (fl : Q -> Q) (a b : Z) :
  b <> 0%Z -> int_truediv fl a b = Ok (fl (inject_Z a / inject_Z b)).
Proof.
  intros Hb. unfold int_truediv. now destruct (Z.eqb_spec b 0).
Qed.

Lemma slice_length {A : Type} (xs : list A) (i w : Z) :
  (0 <= i < Z.of_nat (length xs))%Z -> (1 <= w)%Z ->
  length (Py.slice xs i (i + w))
  = Z.to_nat (Z.min w (Z.of_nat (length xs) - i)).
Proof.
  intros Hi Hw. unfold Py.slice, Py.clamp.
  destruct (Z.ltb_spec i 0); [lia |].
  destruct (Z.ltb_spec (i + w) 0); [lia |].
  rewrite length_firstn, length_skipn. lia.
Qed.

Lemma range_len_bound (n w : Z) (k : nat) :
  (1 <= w)%Z -> (k < Z.to_nat (Py.range_len 0 n w))%nat ->
  (0 <= Z.of_nat k * w < n)%Z.
Proof.
  intros Hw. unfold Py.range_len.
  destruct (Z.ltb_spec 0 w); [| lia].
  destruct (Z.ltb_spec 0 n); [| cbn; lia].
  intros Hk.
  assert (Hdiv : (w * ((n - 0 - 1) / w) <= n - 0 - 1)%Z)
    by (apply Z.mul_div_le; lia).
  assert (0 <= (n - 0 - 1) / w)%Z by (apply Z.div_pos; lia).
  nia.
Qed.

Lemma range_len_ceil (n w : Z) :
  (0 <= n)%Z -> (1 <= w)%Z -> Py.range_len 0 n w = ((n + w - 1) / w)%Z.
Proof.
  intros Hn Hw. unfold Py.range_len.
  destruct (Z.ltb_spec 0 w); [| lia].
  destruct (Z.ltb_spec 0 n).
  - replace (n + w - 1)%Z with (n - 0 - 1 + 1 * w)%Z by lia.
    rewrite Z.div_add by lia. lia.
  - assert (n = 0%Z) as -> by lia. cbn [Z.add].
    symmetry. apply Z.div_small. lia.
Qed.

Section EnvelopeLaws.

Variable fl : Q -> Q.
Hypothesis fl_ok : rounding fl.
Variable sqrt : Q -> Q.

Lemma fsum_nonneg (xs : list Q) :
  Forall (fun x => 0 <= x) xs -> 0 <= fsum fl xs.
Proof.
  intros Hall. unfold fsum.
  assert (H : forall acc, 0 <= acc -> 0 <= fold_left (fadd fl) xs acc).
  { induction Hall as [| x xs Hx _ IH]; intros acc Hacc; [exact Hacc |].
    cbn [fold_left]. apply IH. apply (fl_nonneg fl fl_ok). lra. }
  apply H, Qle_refl.
Qed.

Lemma squares_nonneg (chunk : list Q) :
  Forall (fun x => 0 <= x) (map (fun s => fmul fl s s) chunk).
Proof.
  apply Forall_map, Forall_forall. intros s _.
  apply (fl_nonneg fl fl_ok). nra.
Qed.

(** The mean square that the script computes is never negative: neither
    the rounded squares nor their rounded sums are. *)
Lemma mean_square_nonneg (chunk : list Q) : 0 <= mean_square fl chunk.
Proof.
  unfold mean_square, fdiv. apply (fl_nonneg fl fl_ok).
  unfold Qdiv. apply Qmult_le_0_compat.
  - apply fsum_nonneg, squares_nonneg.
  - apply Qinv_le_0_compat. unfold Qle. cbn. lia.
Qed.

Lemma rms_ok (chunk : list Q) :
  length chunk <> 0%nat ->
  rms fl sqrt chunk = Ok (sqrt (mean_square fl chunk)).
Proof.
  intros Hlen. pose proof (length_pos_neq0 _ Hlen) as Hpos.
  unfold rms. rewrite float_truediv_ok by lra. cbn [bind].
  unfold math_sqrt. fold (mean_square fl chunk).
  now rewrite (proj2 (gt_false 0 (mean_square fl chunk))
                 (mean_square_nonneg chunk)).
Qed.

Lemma envelope_loop_ok (samples : list Q)
    (sample_rate window : Z) (indices : list Z) (envelope : list (Q * Q)) :
  sample_rate <> 0%Z -> (1 <= window)%Z ->
  Forall (fun i => (0 <= i < Z.of_nat (length samples))%Z) indices ->
  envelope_loop fl sqrt samples sample_rate window indices envelope
  = Ok (envelope
        ++ map (window_point fl sqrt samples sample_rate window) indices).
Proof.
  intros Hrate Hw Hall. revert envelope.
  induction Hall as [| i indices Hi _ IH]; intros envelope; cbn [envelope_loop map].
  - now rewrite app_nil_r.
  - assert (Hlen : length (Py.slice samples i (i + window)) <> 0%nat).
    { rewrite slice_length by assumption. lia. }
    rewrite (proj2 (Nat.eqb_neq _ 0) Hlen), rms_ok by exact Hlen.
    cbn [bind]. rewrite int_truediv_ok by exact Hrate.
    cbn [bind]. rewrite IH, <- app_assoc. reflexivity.
Qed.

(** When the product [sample_rate * window_ms] is an integer [p] and [p]
    is a multiple of 1000, the window is [p / 1000], with no rounding. *)
Lemma window_samples_exact (sample_rate : Z) (window_ms : Q) (p w : Z) :
  (Z.abs sample_rate <= 2 ^ 53)%Z -> (Z.abs p <= 2 ^ 53)%Z ->
  inject_Z sample_rate * window_ms == inject_Z p ->
  p = (1000 * w)%Z ->
  window_samples fl sample_rate window_ms = Ok w.
Proof.
  intros Hsr Hp Hprod Hpw. unfold window_samples, window_quotient.
  destruct (to_float_small fl sample_rate fl_ok Hsr) as [-> Hrate].
  cbn [bind].
  assert (Hproduct : fmul fl (fl (inject_Z sample_rate)) window_ms == inject_Z p).
  { unfold fmul. apply (fl_of_int fl fl_ok); [exact Hp |].
    now rewrite Hrate. }
  rewrite (int_fits _ p Hp Hproduct). cbn [bind]. f_equal.
  apply int_of_Z. unfold fdiv. apply (fl_of_int fl fl_ok); [lia |].
  rewrite Hproduct, Hpw, inject_Z_mult. field.
Qed.

Lemma window_samples_zero_rate (window_ms : Q) :
  window_samples fl 0 window_ms = Ok 0%Z.
Proof.
  apply (window_samples_exact 0 window_ms 0 0); try reflexivity; try discriminate.
Qed.

(** With a window of at least one sample the envelope is built, one point
    per window, window [k] starting at sample [k * window]. *)
Lemma calculate_energy_envelope_ok (samples : list Q)
    (sample_rate : Z) (window_ms : Q) (window : Z) :
  window_samples fl sample_rate window_ms = Ok window ->
  (1 <= window)%Z ->
  calculate_energy_envelope fl sqrt samples sample_rate window_ms
  = Ok (map (fun k => window_point fl sqrt samples sample_rate window
                        (Z.of_nat k * window))
            (seq 0 (Z.to_nat (Py.range_len 0 (Z.of_nat (length samples)) window)))).
Proof.
  intros Hwin Hw.
  assert (Hrate : sample_rate <> 0%Z).
  { intros ->. rewrite window_samples_zero_rate in Hwin.
    injection Hwin as <-. lia. }
  unfold calculate_energy_envelope, Py.range. rewrite Hwin. cbn [bind].
  destruct (Z.eqb_spec window 0); [lia |]. cbn [bind].
  rewrite envelope_loop_ok; [| exact Hrate | exact Hw |].
  - cbn [app]. now rewrite map_map.
  - apply Forall_map, Forall_forall. intros k Hk. apply in_seq in Hk.
    cbn [Z.add]. apply range_len_bound; [exact Hw | lia].
Qed.

End EnvelopeLaws.

(** A negative window leaves [range] empty: the envelope is empty. *)
Lemma calculate_energy_envelope_negative_window (fl sqrt : Q -> Q)
    (samples : list Q) (sample_rate : Z) (window_ms : Q) (window : Z) :
  window_samples fl sample_rate window_ms = Ok window ->
  (window < 0)%Z ->
  calculate_energy_envelope fl sqrt samples sample_rate window_ms = Ok [].
Proof.
  intros Hwin Hw. unfold calculate_energy_envelope, Py.range, Py.range_len.
  rewrite Hwin. cbn [bind].
  destruct (Z.eqb_spec window 0); [lia |].
  destruct (Z.ltb_spec 0 window); [lia |].
  destruct (Z.ltb_spec (Z.of_nat (length samples)) 0); [lia |].
  reflexivity.
Qed.

(** The window computation fails in one way only. *)
Lemma window_samples_cases (fl : Q -> Q) (sample_rate : Z) (window_ms : Q) :
  (exists q, window_quotient fl sample_rate window_ms = Ok q /\
             window_samples fl sample_rate window_ms = Ok (Py.int q)) \/
  (window_quotient fl sample_rate window_ms = Err OverflowError /\
   window_samples fl sample_rate window_ms = Err OverflowError).
Proof.
  unfold window_samples, window_quotient.
  destruct (to_float_cases fl (PyInt sample_rate)) as [[rate ->] | ->];
    cbn [bind]; [| now right].
  destruct (overflows (fmul fl rate window_ms)); cbn [bind];
    [now right | left; now eexists].
Qed.

(** ** C7: a window of zero samples *)

(** The window is computed in floating point, and the rounding counts: at
    3 Hz and 333.3333333333333 ms the exact product is below 1000, the
    product of the script is 1000.0 and its window is one sample. *)
Lemma window_rounds_up_to_one :
  let window_ms := round64 (3333333333333333 # 10000000000000) in
  Qfloor (inject_Z 3 * window_ms / 1000) = 0%Z /\
  window_samples round64 3 window_ms = Ok 1%Z.
Proof. split; vm_compute; reflexivity. Qed.

(** C7.  Whenever the quotient [(sample_rate * window_ms) / 1000.0] that
    the script computes has floor 0, the window is 0 samples and
    [calculate_energy_envelope] fails at once, for every sample sequence:
    [range] refuses the zero step with a [ValueError] before the loop body
    runs, so no point is produced, nothing loops and nothing is divided by
    zero. *)
Theorem calculate_energy_envelope_zero_window (fl sqrt : Q -> Q)
    (samples : list Q) (sample_rate : Z) (window_ms quotient : Q) :
  window_quotient fl sample_rate window_ms = Ok quotient ->
  Qfloor quotient = 0%Z ->
  window_samples fl sample_rate window_ms = Ok 0%Z /\
  Py.range 0 (Z.of_nat (length samples)) 0 = Err (ValueError RangeStepZero) /\
  calculate_energy_envelope fl sqrt samples sample_rate window_ms
  = Err (ValueError RangeStepZero).
Proof.
  intros Hq Hfloor.
  assert (Hwin : window_samples fl sample_rate window_ms = Ok 0%Z).
  { unfold window_samples. rewrite Hq. cbn [bind].
    now rewrite (int_of_floor_zero _ Hfloor). }
  split; [exact Hwin | split; [reflexivity |]].
  unfold calculate_energy_envelope. rewrite Hwin. reflexivity.
Qed.

Lemma calculate_energy_envelope_zero_window_witness :
  let quotient := round64 (round64 (round64 44100 * (1 # 128)) / 1000) in
  window_quotient round64 44100 (1 # 128) = Ok quotient /\
  Qfloor quotient = 0%Z /\
  calculate_energy_envelope round64 double_sqrt [1; 0; 1 # 2] 44100 (1 # 128)
  = Err (ValueError RangeStepZero).
Proof.
  intros quotient.
  assert (Hq : window_quotient round64 44100 (1 # 128) = Ok quotient)
    by (vm_compute; reflexivity).
  assert (Hfloor : Qfloor quotient = 0%Z) by (vm_compute; reflexivity).
  split; [exact Hq | split; [exact Hfloor |]].
  exact (proj2 (proj2 (calculate_energy_envelope_zero_window round64 double_sqrt
                         [1; 0; 1 # 2] 44100 (1 # 128) quotient Hq Hfloor))).
Defined.

(** ** C8: the timestamps of the envelope *)

Lemma nth_error_map_seq {A : Type} (h : nat -> A) (c k : nat) (p : A) :
  nth_error (map h (seq 0 c)) k = Some p -> (k < c)%nat /\ p = h k.
Proof.
  rewrite nth_error_map.
  destruct (nth_error (seq 0 c) k) as [j |] eqn:E; [| discriminate].
  cbn [option_map]. intros [= <-].
  assert (Hk : (k < c)%nat).
  { assert (H : (k < length (seq 0 c))%nat)
      by (apply nth_error_Some; congruence).
    now rewrite length_seq in H. }
  split; [exact Hk |].
  apply (nth_error_nth _ _ 0%nat) in E. rewrite seq_nth in E by exact Hk.
  now subst j.
Qed.

Lemma StronglySorted_map_seq {A : Type} (R : A -> A -> Prop) (h : nat -> A)
    (a c : nat) :
  (forall i j, (a <= i < j)%nat -> (j < a + c)%nat -> R (h i) (h j)) ->
  StronglySorted R (map h (seq a c)).
Proof.
  revert a. induction c as [| c IH]; intros a HR; cbn [seq map]; constructor.
  - apply IH. intros i j Hij Hj. apply HR; lia.
  - apply Forall_map, Forall_forall. intros j Hj. apply in_seq in Hj.
    apply HR; lia.
Qed.

Lemma StronglySorted_weaken {A : Type} (R S : A -> A -> Prop) (l : list A) :
  (forall x y, R x y -> S x y) -> StronglySorted R l -> StronglySorted S l.
Proof.
  intros HRS. induction 1 as [| a l _ IH Ha]; constructor; [exact IH |].
  revert Ha. apply Forall_impl. exact (HRS a).
Qed.

(** The exact quotients: strictly increasing, and [w / rate] apart from
    one window to the next. *)
Lemma quotient_lt (rate i j : Z) :
  (0 < rate)%Z -> (i < j)%Z ->
  inject_Z i / inject_Z rate < inject_Z j / inject_Z rate.
Proof.
  intros Hrate Hij. unfold Qdiv. apply Qmult_lt_compat_r.
  - apply Qinv_lt_0_compat. unfold Qlt. cbn. lia.
  - now rewrite <- Zlt_Qlt.
Qed.

Lemma quotient_step (rate w : Z) (k : nat) :
  rate <> 0%Z ->
  inject_Z (Z.of_nat (S k) * w) / inject_Z rate
  - inject_Z (Z.of_nat k * w) / inject_Z rate
  == inject_Z w / inject_Z rate.
Proof.
  intros Hrate. rewrite Nat2Z.inj_succ, !inject_Z_mult.
  unfold Z.succ. rewrite inject_Z_plus. field.
  intros H. apply (inject_Z_injective rate 0) in H. contradiction.
Qed.

Section Timestamps.

Variable fl : Q -> Q.
Hypothesis fl_ok : rounding fl.

Lemma timestamp_le (rate i j : Z) :
  (0 < rate)%Z -> (i <= j)%Z ->
  fl (inject_Z i / inject_Z rate) <= fl (inject_Z j / inject_Z rate).
Proof.
  intros Hrate Hij. apply (fl_mono fl fl_ok).
  destruct (Z.eq_dec i j) as [-> | Hne]; [apply Qle_refl |].
  apply Qlt_le_weak, quotient_lt; [exact Hrate | lia].
Qed.

(** In the normal range a float is within [2^-53] of what it rounds. *)
Lemma fl_bounds (x : Q) :
  2 ^ (-1022) <= x ->
  x - (1 # 9007199254740992) * x <= fl x /\
  fl x <= x + (1 # 9007199254740992) * x.
Proof.
  intros Hx. pose proof (pow2_pos (-1022)) as Hpos.
  pose proof (fl_accurate fl fl_ok x) as H.
  change (1 # 2 ^ 53) with (1 # 9007199254740992) in H.
  rewrite (Qabs_pos x) in H by lra.
  specialize (H Hx). apply Qabs_Qle_condition in H. lra.
Qed.

(** Two distinct sample indices below [2^52] keep distinct timestamps:
    the quotients are at least one part in [2^52] apart, more than the
    two roundings can close. *)
Lemma timestamp_lt (rate i j : Z) :
  (0 < rate <= 2 ^ 1022)%Z -> (0 <= i < j)%Z -> (j <= 2 ^ 52)%Z ->
  fl (inject_Z i / inject_Z rate) < fl (inject_Z j / inject_Z rate).
Proof.
  intros Hrate Hij Hj.
  assert (HS : 0 < inject_Z rate) by (unfold Qlt; cbn; lia).
  set (r := / inject_Z rate).
  assert (Hr0 : 0 < r) by now apply Qinv_lt_0_compat.
  assert (Hr : 2 ^ (-1022) <= r).
  { change (-1022)%Z with (- (1022))%Z. rewrite pow2_opp.
    pose proof (pow2_pos 1022) as Hp.
    apply Qle_shift_inv_l; [exact HS |].
    rewrite Qmult_comm. change (inject_Z rate / 2 ^ 1022 <= 1).
    apply Qle_shift_div_r; [exact Hp |].
    rewrite Qmult_1_l, <- pow2_Z by lia. rewrite <- Zle_Qle. lia. }
  assert (Hy : inject_Z i * r + r <= inject_Z j * r).
  { setoid_replace (inject_Z i * r + r) with (inject_Z (i + 1) * r)
      by (rewrite inject_Z_plus; ring).
    apply Qmult_le_compat_r; [| lra]. rewrite <- Zle_Qle. lia. }
  assert (Hx : inject_Z i * r <= 4503599627370495 * r).
  { apply Qmult_le_compat_r; [| lra].
    change 4503599627370495 with (inject_Z (2 ^ 52 - 1)).
    rewrite <- Zle_Qle. lia. }
  assert (Hi0 : 0 <= inject_Z i * r).
  { apply Qmult_le_0_compat; [| lra].
    change 0 with (inject_Z 0). rewrite <- Zle_Qle. lia. }
  unfold Qdiv. fold r.
  set (x := inject_Z i * r) in *. set (y := inject_Z j * r) in *.
  destruct (fl_bounds y) as [Hlow _]; [lra |].
  destruct (Z.eq_dec i 0) as [Hi | Hi].
  - assert (Hfx : fl x == 0).
    { apply (fl_0 fl fl_ok). unfold x. rewrite Hi. apply Qmult_0_l. }
    rewrite Hfx. lra.
  - assert (Hxr : r <= x).
    { unfold x. rewrite <- (Qmult_1_l r) at 1.
      apply Qmult_le_compat_r; [| lra].
      change 1 with (inject_Z 1). rewrite <- Zle_Qle. lia. }
    destruct (fl_bounds x) as [_ Hup]; [lra |]. lra.
Qed.

Variable sqrt : Q -> Q.

(** The points built for windows [0 .. count - 1] are in time order. *)
Lemma built_envelope_ordered (samples : list Q)
    (sample_rate window : Z) (count : nat) :
  (0 < sample_rate)%Z -> (1 <= window)%Z ->
  time_ordered
    (map (fun k => window_point fl sqrt samples sample_rate window
                     (Z.of_nat k * window))
         (seq 0 count)).
Proof.
  intros Hrate Hw. apply StronglySorted_map_seq.
  intros i j Hij _. cbn [window_point fst].
  apply timestamp_le; [exact Hrate | nia].
Qed.

(** They are in strictly increasing time order as long as the sample
    indices stay below [2^52]. *)
Lemma built_envelope_ascending (samples : list Q)
    (sample_rate window : Z) (count : nat) :
  (0 < sample_rate <= 2 ^ 1022)%Z -> (1 <= window)%Z ->
  (Z.of_nat count * window <= 2 ^ 52 + window)%Z ->
  strictly_ascending
    (map (fun k => window_point fl sqrt samples sample_rate window
                     (Z.of_nat k * window))
         (seq 0 count)).
Proof.
  intros Hrate Hw Hcount. apply StronglySorted_map_seq.
  intros i j Hij Hj. cbn [window_point fst].
  apply timestamp_lt; [exact Hrate | nia | nia].
Qed.

End Timestamps.

Lemma range_len_last (n w : Z) :
  (0 <= n)%Z -> (1 <= w)%Z ->
  (Z.of_nat (Z.to_nat (Py.range_len 0 n w)) * w <= n + w)%Z.
Proof.
  intros Hn Hw. rewrite range_len_ceil by assumption.
  assert (H0 : (0 <= (n + w - 1) / w)%Z) by (apply Z.div_pos; lia).
  rewrite Z2Nat.id by exact H0.
  pose proof (Z.mul_div_le (n + w - 1) w). lia.
Qed.

(** The statement that consecutive timestamps are exactly
    [windowSamples / sampleRate] apart fails on doubles: at 10 Hz with
    windows of 100 ms (one sample) the timestamps are the doubles nearest
    to 0, 1/10, 2/10 and 3/10, and the last two are neither exactly 1/10
    apart nor apart by the double nearest to 1/10, whether the difference
    is exact or rounded. *)
Lemma envelope_gaps_differ :
  exists envelope p q,
    window_samples round64 10 100 = Ok 1%Z /\
    calculate_energy_envelope round64 double_sqrt [0; 0; 0; 0] 10 100
    = Ok envelope /\
    nth_error envelope 2 = Some p /\ nth_error envelope 3 = Some q /\
    ~ fst q - fst p == inject_Z 1 / inject_Z 10 /\
    ~ fst q - fst p == round64 (inject_Z 1 / inject_Z 10) /\
    ~ fsub round64 (fst q) (fst p) == round64 (inject_Z 1 / inject_Z 10).
Proof.
  do 3 eexists.
  split; [vm_compute; reflexivity |].
  split; [vm_compute; reflexivity |].
  split; [reflexivity | split; [reflexivity |]].
  split; [| split]; vm_compute; intros H; discriminate H.
Qed.

(** C8.  For a non-empty sample sequence, a positive sample rate and a
    computed window of [w >= 1] samples, [calculate_energy_envelope]
    returns one point per window, [ceil (n / w)] points for [n] samples:
    point [k] carries the energy of the window that starts at sample
    [k * w] and, as its timestamp, the float nearest to that start index
    divided by the sample rate.  The timestamps never decrease, and they
    strictly increase as long as there are at most [2^52] samples (and the
    rate is at most [2^1022]).  The quotients that two consecutive
    timestamps round are exactly [w / sampleRate] apart. *)
Theorem envelope_timestamps (fl sqrt : Q -> Q) (samples : list Q)
    (sample_rate : Z) (window_ms : Q) (window : Z) :
  rounding fl ->
  samples <> [] ->
  (0 < sample_rate)%Z ->
  window_samples fl sample_rate window_ms = Ok window ->
  (1 <= window)%Z ->
  exists envelope,
    calculate_energy_envelope fl sqrt samples sample_rate window_ms
    = Ok envelope /\
    envelope <> [] /\
    Z.of_nat (length envelope)
    = ((Z.of_nat (length samples) + window - 1) / window)%Z /\
    (forall k p, nth_error envelope k = Some p ->
       let start := (Z.of_nat k * window)%Z in
       (0 <= start < Z.of_nat (length samples))%Z /\
       fst p = fl (inject_Z start / inject_Z sample_rate) /\
       snd p = sqrt (mean_square fl (Py.slice samples start (start + window)))) /\
    time_ordered envelope /\
    ((Z.of_nat (length samples) <= 2 ^ 52)%Z -> (sample_rate <= 2 ^ 1022)%Z ->
     strictly_ascending envelope) /\
    (forall k p q,
       nth_error envelope k = Some p -> nth_error envelope (S k) = Some q ->
       exists x y,
         fst p = fl x /\ fst q = fl y /\
         x == inject_Z (Z.of_nat k * window) / inject_Z sample_rate /\
         y - x == inject_Z window / inject_Z sample_rate).
Proof.
  intros Hfl Hne Hrate Hwin Hw.
  eexists.
  split; [exact (calculate_energy_envelope_ok fl Hfl sqrt samples sample_rate
                   window_ms window Hwin Hw) |].
  set (n := Z.of_nat (length samples)).
  assert (Hn : (1 <= n)%Z).
  { unfold n. destruct samples; [contradiction |]. cbn [length]. lia. }
  assert (Hlen : Py.range_len 0 n window = ((n + window - 1) / window)%Z)
    by (apply range_len_ceil; lia).
  assert (Hpos : (1 <= (n + window - 1) / window)%Z).
  { apply Z.div_le_lower_bound; lia. }
  set (count := Z.to_nat (Py.range_len 0 n window)).
  assert (Hcount : Z.of_nat count = ((n + window - 1) / window)%Z).
  { unfold count. rewrite Hlen. apply Z2Nat.id. lia. }
  split; [| split; [| split; [| split; [| split]]]].
  - destruct count; [lia | discriminate].
  - now rewrite length_map, length_seq.
  - intros k p Hk. apply nth_error_map_seq in Hk as [Hk ->].
    split; [now apply range_len_bound | split; reflexivity].
  - now apply built_envelope_ordered.
  - intros Hsmall Hsr. apply built_envelope_ascending; [exact Hfl | lia | exact Hw |].
    pose proof (range_len_last n window ltac:(lia) Hw) as Hlast.
    fold count in Hlast. fold n in Hsmall. lia.
  - intros k p q Hp Hq.
    apply nth_error_map_seq in Hp as [_ ->].
    apply nth_error_map_seq in Hq as [_ ->].
    cbn [window_point fst]. do 2 eexists.
    split; [reflexivity | split; [reflexivity | split; [reflexivity |]]].
    apply quotient_step. lia.
Qed.

Lemma envelope_timestamps_witness :
  let samples := [0; 1; 0; 0; 3; 4; 1] in
  rounding round64 /\
  samples <> [] /\ (0 < 1000)%Z /\
  window_samples round64 1000 2 = Ok 2%Z /\ (1 <= 2)%Z /\
  exists envelope,
    calculate_energy_envelope round64 double_sqrt samples 1000 2 = Ok envelope /\
    Z.of_nat (length envelope) = ((Z.of_nat (length samples) + 2 - 1) / 2)%Z /\
    time_ordered envelope /\ strictly_ascending envelope.
Proof.
  intros samples.
  assert (H1 : samples <> []) by discriminate.
  assert (H2 : (0 < 1000)%Z) by reflexivity.
  assert (H3 : window_samples round64 1000 2 = Ok 2%Z) by (vm_compute; reflexivity).
  assert (H4 : (1 <= 2)%Z) by discriminate.
  split; [exact round64_rounding |].
  split; [exact H1 | split; [exact H2 | split; [exact H3 | split; [exact H4 |]]]].
  destruct (envelope_timestamps round64 double_sqrt samples 1000 2 2
              round64_rounding H1 H2 H3 H4)
    as [envelope [Hcalc [_ [Hlen [_ [Hord [Hasc _]]]]]]].
  exists envelope.
  split; [exact Hcalc | split; [exact Hlen | split; [exact Hord |]]].
  apply Hasc; vm_compute; discriminate.
Defined.

(** ** C5: a thousand samples of silence *)

Lemma slice_incl {A : Type} (xs : list A) (lo hi : Z) (x : A) :
  In x (Py.slice xs lo hi) -> In x xs.
Proof.
  unfold Py.slice. intros H.
  rewrite <- (firstn_skipn (Z.to_nat (Py.clamp (Z.of_nat (length xs)) lo)) xs).
  apply in_or_app. right.
  rewrite <- (firstn_skipn
                (Z.to_nat (Py.clamp (Z.of_nat (length xs)) hi
                           - Py.clamp (Z.of_nat (length xs)) lo))
                (skipn _ xs)).
  apply in_or_app. now left.
Qed.

Lemma picked_nothing (fl : Q -> Q) (thr d last : Q) (envelope : list (Q * Q)) :
  Forall (fun p => snd p <= thr) envelope -> picked fl thr d last envelope = [].
Proof.
  intros H. rewrite <- (app_nil_r envelope).
  now rewrite picked_below_threshold.
Qed.

Section Silence.

Variable fl : Q -> Q.
Hypothesis fl_ok : rounding fl.

Lemma mean_square_silence (chunk : list Q) :
  Forall (fun s => s == 0) chunk -> mean_square fl chunk == 0.
Proof.
  intros Hall. unfold mean_square, fsum, fdiv.
  assert (H : forall acc, acc == 0 ->
                fold_left (fadd fl) (map (fun s => fmul fl s s) chunk) acc == 0).
  { induction Hall as [| s chunk Hs _ IH]; intros acc Hacc; [exact Hacc |].
    cbn [map fold_left]. apply IH. unfold fadd, fmul.
    apply (fl_0 fl fl_ok).
    rewrite Hacc, (fl_0 fl fl_ok (s * s)) by (rewrite Hs; reflexivity).
    reflexivity. }
  apply (fl_0 fl fl_ok). rewrite (H 0) by reflexivity.
  unfold Qdiv. apply Qmult_0_l.
Qed.

(** An envelope whose energies are all zero has no onset, whatever the
    configuration: the threshold is zero and no energy exceeds it. *)
Lemma detect_onsets_silence (envelope : list (Q * Q)) (f d : number)
    (xf xd : Q) :
  to_float fl f = Ok xf -> to_float fl d = Ok xd ->
  Forall (fun p => snd p == 0) envelope ->
  detect_onsets fl envelope f d = Ok [].
Proof.
  intros Hf Hd Hall.
  rewrite (detect_onsets_converted fl envelope f d xf xd Hf Hd).
  destruct envelope as [| p l]; [reflexivity |].
  destruct (detect_onsets_picked fl p l xf xd) as [m [_ [Hin ->]]].
  assert (Hm : m == 0).
  { apply in_map_iff in Hin as [q [<- Hq]].
    rewrite Forall_forall in Hall. now apply Hall. }
  assert (Hthr : fmul fl m xf == 0).
  { apply (fl_0 fl fl_ok). rewrite Hm. apply Qmult_0_l. }
  rewrite picked_nothing; [reflexivity |].
  revert Hall. apply Forall_impl. intros q Hq. rewrite Hq, Hthr. lra.
Qed.

End Silence.

(** C5 as the specification words it fails: the envelope of 1000 samples
    at 1000 Hz with 5 ms windows has 200 points, not 2. *)
Lemma silence_gives_200_points :
  exists envelope,
    calculate_energy_envelope round64 double_sqrt (repeat 0 1000) 1000 5
    = Ok envelope /\
    length envelope = 200%nat /\ length envelope <> 2%nat.
Proof.
  eexists. split; [vm_compute; reflexivity |].
  split; [reflexivity | discriminate].
Qed.

(** C5.  For 1000 samples all equal to zero, a sample rate of 1000 and
    5 ms windows (5 samples each), [calculate_energy_envelope] returns an
    envelope of exactly 200 points, all with energy 0, provided the square
    root of 0 is 0; and [detect_onsets] on that envelope returns the empty
    list for every threshold factor above 0 and every minimum distance. *)
Theorem silent_envelope (fl sqrt : Q -> Q) :
  rounding fl ->
  (forall x, x == 0 -> sqrt x == 0) ->
  exists envelope,
    window_samples fl 1000 5 = Ok 5%Z /\
    calculate_energy_envelope fl sqrt (repeat 0 1000) 1000 5 = Ok envelope /\
    length envelope = 200%nat /\
    Forall (fun p => snd p == 0) envelope /\
    (forall (threshold_factor min_distance_ms : number) (factor distance : Q),
        to_float fl threshold_factor = Ok factor ->
        to_float fl min_distance_ms = Ok distance ->
        0 < factor ->
        detect_onsets fl envelope threshold_factor min_distance_ms = Ok []).
Proof.
  intros Hfl Hsqrt.
  assert (Hwin : window_samples fl 1000 5 = Ok 5%Z).
  { apply (window_samples_exact fl Hfl 1000 5 5000 5);
      try reflexivity; discriminate. }
  eexists. split; [exact Hwin |].
  split; [exact (calculate_energy_envelope_ok fl Hfl sqrt (repeat 0 1000) 1000 5
                   5 Hwin ltac:(discriminate)) |].
  assert (Hzero : Forall (fun p => snd p == 0)
            (map (fun k => window_point fl sqrt (repeat 0 1000) 1000 5
                             (Z.of_nat k * 5))
               (seq 0 (Z.to_nat
                         (Py.range_len 0 (Z.of_nat (length (repeat 0 1000)))
                            5))))).
  { apply Forall_map, Forall_forall. intros k _. cbn [window_point snd].
    apply Hsqrt, (mean_square_silence fl Hfl), Forall_forall. intros s Hs.
    apply slice_incl, repeat_spec in Hs. now subst s. }
  split; [| split; [exact Hzero |]].
  - rewrite length_map, length_seq. vm_compute. reflexivity.
  - intros f d xf xd Hf Hd _.
    exact (detect_onsets_silence fl Hfl _ f d xf xd Hf Hd Hzero).
Qed.

Lemma silent_envelope_witness :
  rounding round64 /\
  (forall x, x == 0 -> double_sqrt x == 0) /\
  exists envelope,
    calculate_energy_envelope round64 double_sqrt (repeat 0 1000) 1000 5
    = Ok envelope /\
    length envelope = 200%nat /\
    Forall (fun p => snd p == 0) envelope /\
    detect_onsets round64 envelope (PyFloat (round64 (15 # 100))) (PyInt 60)
    = Ok [].
Proof.
  split; [exact round64_rounding | split; [exact double_sqrt_zero |]].
  destruct (silent_envelope round64 double_sqrt round64_rounding double_sqrt_zero)
    as [envelope [_ [Hc [Hl [Hz Hd]]]]].
  exists envelope. split; [exact Hc | split; [exact Hl | split; [exact Hz |]]].
  apply (Hd (PyFloat (round64 (15 # 100))) (PyInt 60) (round64 (15 # 100)) 60).
  - reflexivity.
  - vm_compute. reflexivity.
  - vm_compute. reflexivity.
Defined.
(** ** C9: the peak report *)

Section StableSort.

Context {A : Type}.
Variable key : A -> Q.

(** [before x y]: [x] stood before [y] in the list that is sorted. *)
Variable before : A -> A -> Prop.

Lemma insert_desc_perm (x : A) (l : list A) :
  Permutation (Py.insert_desc key x l) (x :: l).
Proof.
  induction l as [| y l IH]; cbn [Py.insert_desc]; [reflexivity |].
  destruct (Py.gt (key y) (key x)); [| reflexivity].
  rewrite IH. apply perm_swap.
Qed.

Lemma sorted_reverse_perm (l : list A) :
  Permutation (Py.sorted_reverse key l) l.
Proof.
  induction l as [| x l IH]; cbn [Py.sorted_reverse fold_right]; [reflexivity |].
  fold (Py.sorted_reverse key l). rewrite insert_desc_perm. now constructor.
Qed.

Lemma stable_desc_key (x y : A) : stable_desc key before x y -> key y <= key x.
Proof. intros [H | [H _]]; [now apply Qlt_le_weak | rewrite H; apply Qle_refl]. Qed.

Lemma insert_desc_sorted (x : A) (l : list A) :
  Forall (before x) l ->
  StronglySorted (stable_desc key before) l ->
  StronglySorted (stable_desc key before) (Py.insert_desc key x l).
Proof.
  intros Hx Hs. induction Hs as [| y l Hs IH Hy]; cbn [Py.insert_desc].
  - repeat constructor.
  - inversion Hx as [| ? ? Hxy Hxl]; subst.
    destruct (Py.gt (key y) (key x)) eqn:E.
    + apply gt_true in E. constructor; [now apply IH |].
      rewrite (insert_desc_perm x l). constructor; [now left | exact Hy].
    + apply gt_false in E. constructor; [now constructor |].
      assert (Hall : Forall (fun z => key z <= key x /\ before x z) (y :: l)).
      { constructor; [now split |].
        rewrite Forall_forall in Hy, Hxl |- *. intros z Hz. split.
        - apply Qle_trans with (key y); [| exact E].
          now apply (stable_desc_key y z), Hy.
        - now apply Hxl. }
      revert Hall. apply Forall_impl. intros z [Hk Hb].
      destruct (Qlt_le_dec (key z) (key x)) as [Hlt | Hge]; [now left | right].
      split; [now apply Qle_antisym | exact Hb].
Qed.

(** [sorted(..., reverse=True)] is stable: on a list already in [before]
    order, equal keys stay in that order. *)
Lemma sorted_reverse_sorted (l : list A) :
  StronglySorted before l ->
  StronglySorted (stable_desc key before) (Py.sorted_reverse key l).
Proof.
  induction 1 as [| x l _ IH Hx]; cbn [Py.sorted_reverse fold_right].
  - constructor.
  - fold (Py.sorted_reverse key l). apply insert_desc_sorted; [| exact IH].
    now rewrite (sorted_reverse_perm l).
Qed.

End StableSort.

Lemma StronglySorted_app {A : Type} (R : A -> A -> Prop) (l1 l2 : list A) :
  StronglySorted R (l1 ++ l2) ->
  StronglySorted R l1 /\ (forall p q, In p l1 -> In q l2 -> R p q).
Proof.
  induction l1 as [| a l1 IH]; cbn [app]; intros Hs.
  - split; [constructor | intros p q []].
  - inversion Hs as [| ? ? Hs' Ha]; subst. destruct (IH Hs') as [H1 H2].
    split.
    + constructor; [exact H1 |]. apply Forall_app in Ha. tauto.
    + intros p q [<- | Hp] Hq; [| now apply H2].
      rewrite Forall_forall in Ha. apply Ha, in_or_app. now right.
Qed.

Lemma slice_prefix {A : Type} (xs : list A) (n : Z) :
  (0 <= n)%Z -> Py.slice xs 0 n = firstn (Z.to_nat n) xs.
Proof.
  intros Hn. unfold Py.slice, Py.clamp.
  destruct (Z.ltb_spec 0 0); [lia |]. destruct (Z.ltb_spec n 0); [lia |].
  replace (Z.to_nat (Z.max 0 (Z.min (Z.of_nat (length xs)) 0))) with 0%nat by lia.
  cbn [skipn].
  destruct (Z.le_ge_cases n (Z.of_nat (length xs))) as [Hle | Hge].
  - f_equal. lia.
  - rewrite (firstn_all2 (n := Z.to_nat n)) by lia. apply firstn_all2. lia.
Qed.

(** C9.  For an envelope in timestamp order and a report size [N >= 0],
    the peak report consists of [min N (length envelope)] points of the
    envelope, none of the points left out has more energy than a reported
    one, the report is sorted by energy descending, and reported points of
    equal energy appear in ascending timestamp order. *)
Theorem top_peaks_report (n : Z) (envelope : list (Q * Q)) :
  (0 <= n)%Z ->
  time_ordered envelope ->
  exists rest,
    Permutation (top_peaks n envelope ++ rest) envelope /\
    length (top_peaks n envelope) = Nat.min (Z.to_nat n) (length envelope) /\
    StronglySorted ranks_before (top_peaks n envelope) /\
    (forall p q, In p (top_peaks n envelope) -> In q rest -> snd q <= snd p).
Proof.
  intros Hn Hsorted. unfold top_peaks. rewrite slice_prefix by exact Hn.
  set (sorted := Py.sorted_reverse snd envelope).
  exists (skipn (Z.to_nat n) sorted).
  pose proof (sorted_reverse_sorted snd (fun p q => fst p <= fst q) envelope
                Hsorted) as Hs.
  fold sorted in Hs. rewrite <- (firstn_skipn (Z.to_nat n) sorted) in Hs.
  apply StronglySorted_app in Hs as [Htop Hcross].
  split; [| split; [| split]].
  - rewrite firstn_skipn. apply sorted_reverse_perm.
  - rewrite length_firstn. unfold sorted.
    now rewrite (Permutation_length (sorted_reverse_perm snd envelope)).
  - exact Htop.
  - intros p q Hp Hq.
    apply (stable_desc_key snd (fun p q => fst p <= fst q)). now apply Hcross.
Qed.

Lemma top_peaks_report_witness :
  let envelope := [(0, 1 # 2); (1, 1); (2, 1 # 2); (3, 2 # 2); (4, 0)] in
  (0 <= 3)%Z /\ time_ordered envelope /\
  top_peaks 3 envelope = [(1, 1); (3, 2 # 2); (0, 1 # 2)] /\
  exists rest,
    Permutation (top_peaks 3 envelope ++ rest) envelope /\
    length (top_peaks 3 envelope) = Nat.min (Z.to_nat 3) (length envelope) /\
    StronglySorted ranks_before (top_peaks 3 envelope) /\
    (forall p q, In p (top_peaks 3 envelope) -> In q rest -> snd q <= snd p).
Proof.
  intros envelope.
  assert (H0 : (0 <= 3)%Z) by discriminate.
  assert (Hs : time_ordered envelope) by (repeat constructor; discriminate).
  split; [exact H0 | split; [exact Hs | split; [reflexivity |]]].
  exact (top_peaks_report 3 envelope H0 Hs).
Defined.

(** Out of timestamp order, ties keep the order of the list instead. *)
Lemma top_peaks_ties_follow_input :
  top_peaks 20 [(1, 1 # 2); (0, 1 # 2)] = [(1, 1 # 2); (0, 1 # 2)].
Proof. reflexivity. Qed.

(** * Further properties of the script *)

(** ** [read_wav]: when decoding fails *)

Lemma unpack_h_bad_length (n : nat) (buf : list byte) :
  length buf <> (2 * n)%nat -> Py.unpack_h n buf = Err StructError.
Proof.
  revert buf. induction n as [| n IH]; intros buf Hlen.
  - destruct buf; [contradiction | reflexivity].
  - destruct buf as [| b0 [| b1 rest]]; try reflexivity.
    cbn [Py.unpack_h]. rewrite IH; [reflexivity |]. cbn [length] in Hlen. lia.
Qed.

(** X1.  With a sample width of 2, [read_wav] returns samples exactly when
    the buffer holds [2 * num_frames] bytes; with any other length it
    raises [struct.error] and returns nothing. *)
Theorem read_wav_16bit_outcome
    (unpack_f : nat -> list byte -> result (list Q)) (w : wav) :
  getsampwidth w = 2%Z ->
  (length (readframes w) = (2 * getnframes w)%nat <->
   exists samples, read_wav unpack_f w = Ok (samples, getframerate w)) /\
  (length (readframes w) <> (2 * getnframes w)%nat ->
   read_wav unpack_f w = Err StructError).
Proof.
  intros Hwidth.
  assert (Hbad : length (readframes w) <> (2 * getnframes w)%nat ->
                 read_wav unpack_f w = Err StructError).
  { intros Hlen. unfold read_wav. rewrite Hwidth. cbn [Z.eqb Pos.eqb].
    now rewrite unpack_h_bad_length. }
  split; [split |]; [| | exact Hbad].
  - intros Hlen. destruct (unpack_h_ok _ _ Hlen) as [xs [Hxs _]].
    unfold read_wav. rewrite Hwidth, Hxs. cbn [Z.eqb Pos.eqb bind]. now eexists.
  - intros [samples Hok].
    destruct (Nat.eq_dec (length (readframes w)) (2 * getnframes w)) as [E | E];
      [exact E |].
    rewrite (Hbad E) in Hok. discriminate Hok.
Qed.

Lemma read_wav_16bit_outcome_witness :
  let w := {| getframerate := 8000; getnframes := 2; getsampwidth := 2;
              readframes := [x01; x00; xff] |} in
  getsampwidth w = 2%Z /\
  length (readframes w) <> (2 * getnframes w)%nat /\
  read_wav (fun _ _ => Ok []) w = Err StructError.
Proof.
  intros w.
  assert (Hw : getsampwidth w = 2%Z) by reflexivity.
  assert (Hl : length (readframes w) <> (2 * getnframes w)%nat) by discriminate.
  split; [exact Hw | split; [exact Hl |]].
  exact (proj2 (read_wav_16bit_outcome (fun _ _ => Ok []) w Hw) Hl).
Defined.

(** X2.  A sample width other than 2 and 4 makes [read_wav] raise a
    [ValueError] that carries the width, whatever the buffer and the frame
    count are: the buffer is not even looked at. *)
Theorem read_wav_unsupported_width
    (unpack_f : nat -> list byte -> result (list Q)) (w : wav) :
  getsampwidth w <> 2%Z -> getsampwidth w <> 4%Z ->
  read_wav unpack_f w
  = Err (ValueError (UnsupportedSampleWidth (getsampwidth w))).
Proof.
  intros H2 H4. unfold read_wav.
  destruct (Z.eqb_spec (getsampwidth w) 2); [contradiction |].
  destruct (Z.eqb_spec (getsampwidth w) 4); [contradiction | reflexivity].
Qed.

Lemma read_wav_unsupported_width_witness :
  let w := {| getframerate := 44100; getnframes := 5; getsampwidth := 3;
              readframes := [x00; x01] |} in
  getsampwidth w <> 2%Z /\ getsampwidth w <> 4%Z /\
  read_wav (fun _ _ => Ok []) w = Err (ValueError (UnsupportedSampleWidth 3)).
Proof.
  intros w.
  assert (H2 : getsampwidth w <> 2%Z) by discriminate.
  assert (H4 : getsampwidth w <> 4%Z) by discriminate.
  split; [exact H2 | split; [exact H4 |]].
  exact (read_wav_unsupported_width (fun _ _ => Ok []) w H2 H4).
Defined.


(** ** [calculate_energy_envelope]: failure, size and windows *)

(** X3.  [calculate_energy_envelope] has two ways to fail and no other:
    [OverflowError] when the window cannot be computed (the sample rate or
    its product with [window_ms] is beyond the doubles), and the
    [ValueError] of [range] when the window is 0 samples long.  For every
    other input it returns an envelope.  In particular it never divides by
    zero (a zero sample rate makes the window 0) and never takes the root
    of a negative number. *)
Theorem calculate_energy_envelope_outcome (fl sqrt : Q -> Q)
    (samples : list Q) (sample_rate : Z) (window_ms : Q) :
  rounding fl ->
  (window_samples fl sample_rate window_ms = Err OverflowError /\
   calculate_energy_envelope fl sqrt samples sample_rate window_ms
   = Err OverflowError)
  \/
  (window_samples fl sample_rate window_ms = Ok 0%Z /\
   calculate_energy_envelope fl sqrt samples sample_rate window_ms
   = Err (ValueError RangeStepZero))
  \/
  (exists window,
     window_samples fl sample_rate window_ms = Ok window /\ window <> 0%Z /\
     exists envelope,
       calculate_energy_envelope fl sqrt samples sample_rate window_ms
       = Ok envelope).
Proof.
  intros Hfl.
  destruct (window_samples_cases fl sample_rate window_ms)
    as [[q [_ Hwin]] | [_ Hwin]].
  - right. destruct (Z.lt_trichotomy (Py.int q) 0) as [Hw | [Hw | Hw]].
    + right. exists (Py.int q). split; [exact Hwin | split; [lia |]].
      exists []. now apply (calculate_energy_envelope_negative_window _ _ _ _ _ _ Hwin).
    + left. rewrite Hw in Hwin. split; [exact Hwin |].
      unfold calculate_energy_envelope. now rewrite Hwin.
    + right. exists (Py.int q). split; [exact Hwin | split; [lia |]].
      eexists. apply (calculate_energy_envelope_ok fl Hfl sqrt _ _ _ _ Hwin). lia.
  - left. split; [exact Hwin |].
    unfold calculate_energy_envelope. now rewrite Hwin.
Qed.

Lemma calculate_energy_envelope_outcome_witness :
  rounding round64 /\
  exists envelope,
    calculate_energy_envelope round64 double_sqrt [1; 0; 1 # 2] 1000 2
    = Ok envelope.
Proof.
  split; [exact round64_rounding |].
  destruct (calculate_energy_envelope_outcome round64 double_sqrt [1; 0; 1 # 2]
              1000 2 round64_rounding)
    as [[Hwin _] | [[Hwin _] | [w [_ [_ Hcalc]]]]].
  - vm_compute in Hwin. discriminate Hwin.
  - vm_compute in Hwin. discriminate Hwin.
  - exact Hcalc.
Defined.

(** The overflow is reached: a product beyond the doubles is an infinity,
    which [int] refuses. *)
Lemma calculate_energy_envelope_overflow :
  calculate_energy_envelope round64 double_sqrt [0] (10 ^ 300)
    (inject_Z (10 ^ 10))
  = Err OverflowError.
Proof. vm_compute. reflexivity. Qed.

Lemma empty_samples_empty_envelope (fl sqrt : Q -> Q)
    (sample_rate : Z) (window_ms : Q) (window : Z) :
  window_samples fl sample_rate window_ms = Ok window ->
  window <> 0%Z ->
  calculate_energy_envelope fl sqrt [] sample_rate window_ms = Ok [].
Proof.
  intros Hwin Hw. unfold calculate_energy_envelope, Py.range, Py.range_len.
  rewrite Hwin. cbn [bind].
  destruct (Z.eqb_spec window 0); [contradiction |].
  cbn [length Z.of_nat Z.ltb Z.compare].
  now destruct (0 <? window)%Z.
Qed.

(** X4.  An empty sample sequence gives an empty envelope, not an error,
    as long as the window is computed and is not 0 samples long. *)
Theorem calculate_energy_envelope_no_samples (fl sqrt : Q -> Q)
    (sample_rate : Z) (window_ms : Q) (window : Z) :
  window_samples fl sample_rate window_ms = Ok window ->
  window <> 0%Z ->
  calculate_energy_envelope fl sqrt [] sample_rate window_ms = Ok [].
Proof. apply empty_samples_empty_envelope. Qed.

Lemma calculate_energy_envelope_no_samples_witness :
  window_samples round64 44100 5 = Ok 220%Z /\ 220%Z <> 0%Z /\
  calculate_energy_envelope round64 double_sqrt [] 44100 5 = Ok [].
Proof.
  assert (Hwin : window_samples round64 44100 5 = Ok 220%Z)
    by (vm_compute; reflexivity).
  assert (Hw : 220%Z <> 0%Z) by discriminate.
  split; [exact Hwin | split; [exact Hw |]].
  exact (calculate_energy_envelope_no_samples round64 double_sqrt 44100 5 220
           Hwin Hw).
Defined.

(** X5.  A negative window (a negative [window_ms], or a negative sample
    rate) is not reported: [range] is empty and the envelope comes back
    empty, whatever the samples are. *)
Theorem negative_window_gives_empty_envelope (fl sqrt : Q -> Q)
    (samples : list Q) (sample_rate : Z) (window_ms : Q) (window : Z) :
  window_samples fl sample_rate window_ms = Ok window ->
  (window < 0)%Z ->
  calculate_energy_envelope fl sqrt samples sample_rate window_ms = Ok [].
Proof. apply calculate_energy_envelope_negative_window. Qed.

Lemma negative_window_gives_empty_envelope_witness :
  window_samples round64 1000 (-5) = Ok (-5)%Z /\ (-5 < 0)%Z /\
  calculate_energy_envelope round64 double_sqrt [1; 1 # 2; 0] 1000 (-5) = Ok [].
Proof.
  assert (Hwin : window_samples round64 1000 (-5) = Ok (-5)%Z)
    by (vm_compute; reflexivity).
  assert (Hw : (-5 < 0)%Z) by reflexivity.
  split; [exact Hwin | split; [exact Hw |]].
  exact (negative_window_gives_empty_envelope round64 double_sqrt [1; 1 # 2; 0]
           1000 (-5) (-5) Hwin Hw).
Defined.

Lemma envelope_length (fl sqrt : Q -> Q) (samples : list Q)
    (sample_rate : Z) (window_ms : Q) (window : Z) :
  rounding fl ->
  window_samples fl sample_rate window_ms = Ok window ->
  (1 <= window)%Z ->
  exists envelope,
    calculate_energy_envelope fl sqrt samples sample_rate window_ms
    = Ok envelope /\
    envelope = map (fun k => window_point fl sqrt samples sample_rate window
                               (Z.of_nat k * window))
                   (seq 0 (length envelope)) /\
    Z.of_nat (length envelope)
    = ((Z.of_nat (length samples) + window - 1) / window)%Z.
Proof.
  intros Hfl Hwin Hw. eexists.
  split; [exact (calculate_energy_envelope_ok fl Hfl sqrt samples sample_rate
                   window_ms window Hwin Hw) |].
  rewrite length_map, length_seq. split; [reflexivity |].
  rewrite range_len_ceil by lia. apply Z2Nat.id.
  apply Z.div_pos; lia.
Qed.

(** X6.  With a computed window of [w >= 1] samples, the envelope of [n]
    samples has [ceil (n / w)] points: one per full window and one more
    for a shorter last window. *)
Theorem envelope_point_count (fl sqrt : Q -> Q) (samples : list Q)
    (sample_rate : Z) (window_ms : Q) (window : Z) :
  rounding fl ->
  window_samples fl sample_rate window_ms = Ok window ->
  (1 <= window)%Z ->
  exists envelope,
    calculate_energy_envelope fl sqrt samples sample_rate window_ms
    = Ok envelope /\
    Z.of_nat (length envelope)
    = ((Z.of_nat (length samples) + window - 1) / window)%Z.
Proof.
  intros Hfl Hwin Hw.
  destruct (envelope_length fl sqrt samples sample_rate window_ms window
              Hfl Hwin Hw) as [envelope [Hcalc [_ Hlen]]].
  now exists envelope.
Qed.

Lemma envelope_point_count_witness :
  rounding round64 /\
  window_samples round64 3 (round64 (6666666666666666 # 10000000000000))
  = Ok 2%Z /\ (1 <= 2)%Z /\
  exists envelope,
    calculate_energy_envelope round64 double_sqrt [0; 1; 0; 0] 3
      (round64 (6666666666666666 # 10000000000000)) = Ok envelope /\
    Z.of_nat (length envelope) = 2%Z.
Proof.
  assert (Hwin : window_samples round64 3
                   (round64 (6666666666666666 # 10000000000000)) = Ok 2%Z)
    by (vm_compute; reflexivity).
  assert (Hw : (1 <= 2)%Z) by discriminate.
  split; [exact round64_rounding | split; [exact Hwin | split; [exact Hw |]]].
  exact (envelope_point_count round64 double_sqrt [0; 1; 0; 0] 3
           (round64 (6666666666666666 # 10000000000000)) 2
           round64_rounding Hwin Hw).
Defined.

(** The windows, one after the other, are the sample sequence itself. *)





(** ** [calculate_energy_envelope]: what the envelope looks like *)

(** Whatever is returned was built from a computed window: an empty list
    for a negative window, one point per window otherwise. *)
Lemma calculate_energy_envelope_inv (fl sqrt : Q -> Q) (samples : list Q)
    (sample_rate : Z) (window_ms : Q) (envelope : list (Q * Q)) :
  rounding fl ->
  calculate_energy_envelope fl sqrt samples sample_rate window_ms = Ok envelope ->
  exists window,
    window_samples fl sample_rate window_ms = Ok window /\
    ((window < 0)%Z /\ envelope = []
     \/
     (1 <= window)%Z /\
     envelope
     = map (fun k => window_point fl sqrt samples sample_rate window
                       (Z.of_nat k * window))
           (seq 0 (Z.to_nat (Py.range_len 0 (Z.of_nat (length samples)) window)))).
Proof.
  intros Hfl Hcalc.
  destruct (window_samples_cases fl sample_rate window_ms)
    as [[q [_ Hwin]] | [_ Hwin]].
  - exists (Py.int q). split; [exact Hwin |].
    destruct (Z.lt_trichotomy (Py.int q) 0) as [Hw | [Hw | Hw]].
    + left. split; [exact Hw |].
      rewrite (calculate_energy_envelope_negative_window _ _ _ _ _ _ Hwin Hw)
        in Hcalc.
      now injection Hcalc as <-.
    + unfold calculate_energy_envelope in Hcalc. rewrite Hwin, Hw in Hcalc.
      discriminate Hcalc.
    + right. split; [lia |].
      rewrite (calculate_energy_envelope_ok fl Hfl sqrt _ _ _ _ Hwin) in Hcalc
        by lia.
      now injection Hcalc as <-.
  - unfold calculate_energy_envelope in Hcalc. rewrite Hwin in Hcalc.
    discriminate Hcalc.
Qed.

(** X8.  Whatever [calculate_energy_envelope] returns for a positive sample
    rate is an envelope of the data model: timestamps in non-decreasing
    order and energies that are not negative (for a square root that is
    not negative). *)
Theorem built_envelope_well_formed (fl sqrt : Q -> Q) (samples : list Q)
    (sample_rate : Z) (window_ms : Q) (envelope : list (Q * Q)) :
  rounding fl ->
  (forall x, 0 <= x -> 0 <= sqrt x) ->
  (0 < sample_rate)%Z ->
  calculate_energy_envelope fl sqrt samples sample_rate window_ms = Ok envelope ->
  time_ordered envelope /\ energies_nonneg envelope.
Proof.
  intros Hfl Hsqrt Hrate Hcalc.
  destruct (calculate_energy_envelope_inv fl sqrt _ _ _ _ Hfl Hcalc)
    as [window [_ [[_ ->] | [Hw ->]]]].
  - split; constructor.
  - split.
    + now apply built_envelope_ordered.
    + apply Forall_map, Forall_forall. intros k _.
      cbn [window_point snd]. apply Hsqrt, (mean_square_nonneg fl Hfl).
Qed.

Lemma built_envelope_well_formed_witness :
  rounding round64 /\
  (forall x, 0 <= x -> 0 <= double_sqrt x) /\ (0 < 1000)%Z /\
  exists envelope,
    calculate_energy_envelope round64 double_sqrt [0; 1; 0; 0] 1000 2
    = Ok envelope /\
    time_ordered envelope /\ energies_nonneg envelope.
Proof.
  assert (H1 : (0 < 1000)%Z) by reflexivity.
  split; [exact round64_rounding | split; [exact double_sqrt_nonneg |]].
  split; [exact H1 |].
  destruct (calculate_energy_envelope round64 double_sqrt [0; 1; 0; 0] 1000 2)
    as [envelope |] eqn:Hcalc; [| vm_compute in Hcalc; discriminate Hcalc].
  exists envelope. split; [reflexivity |].
  exact (built_envelope_well_formed round64 double_sqrt _ _ _ _
           round64_rounding double_sqrt_nonneg H1 Hcalc).
Defined.

Section EnergyRange.

Variable fl : Q -> Q.
Hypothesis fl_ok : rounding fl.

Lemma square_unit (s : Q) : -1 <= s -> s <= 1 -> 0 <= fmul fl s s <= 1.
Proof.
  intros Hlo Hhi. unfold fmul. split.
  - apply (fl_nonneg fl fl_ok). nra.
  - rewrite <- (fl_1 fl fl_ok 1) by reflexivity.
    apply (fl_mono fl fl_ok). nra.
Qed.

(** A float sum of [n] terms of at most 1 is at most [n]: while the sum
    is below [2^53] every partial bound is an integer that rounding
    leaves alone, and at [2^53] the sum stops growing. *)
Lemma fsum_le_length (xs : list Q) :
  Forall (fun x => 0 <= x <= 1) xs ->
  fsum fl xs <= inject_Z (Z.of_nat (length xs)).
Proof.
  intros Hall. unfold fsum.
  assert (H : forall acc k, (0 <= k)%Z ->
                acc <= inject_Z (Z.min k (2 ^ 53)) ->
                fold_left (fadd fl) xs acc
                <= inject_Z (Z.min (k + Z.of_nat (length xs)) (2 ^ 53))).
  { induction Hall as [| x xs [Hlo Hhi] _ IH]; intros acc k Hk Hacc.
    - cbn [fold_left length Z.of_nat]. now rewrite Z.add_0_r.
    - cbn [fold_left length]. rewrite Nat2Z.inj_succ.
      replace (k + Z.succ (Z.of_nat (length xs)))%Z
        with (k + 1 + Z.of_nat (length xs))%Z by lia.
      apply IH; [lia |]. unfold fadd.
      destruct (Z_lt_le_dec k (2 ^ 53)) as [Hsmall | Hlarge].
      + rewrite Z.min_l in Hacc by lia. rewrite Z.min_l by lia.
        rewrite <- (fl_int fl fl_ok (k + 1)) by lia.
        apply (fl_mono fl fl_ok). rewrite inject_Z_plus.
        change (inject_Z 1) with 1. lra.
      + rewrite Z.min_r in Hacc by lia. rewrite Z.min_r by lia.
        apply Qle_trans with (fl (inject_Z (2 ^ 53 + 1)));
          [| apply (fl_precision fl fl_ok)].
        apply (fl_mono fl fl_ok). rewrite inject_Z_plus.
        change (inject_Z 1) with 1. lra. }
  apply Qle_trans with (inject_Z (Z.min (0 + Z.of_nat (length xs)) (2 ^ 53))).
  - apply H; [lia |]. rewrite Z.min_l by lia. apply Qle_refl.
  - rewrite <- Zle_Qle. lia.
Qed.

Lemma mean_square_le_one (chunk : list Q) :
  length chunk <> 0%nat ->
  Forall (fun s => -1 <= s /\ s <= 1) chunk ->
  mean_square fl chunk <= 1.
Proof.
  intros Hlen Hall. unfold mean_square, fdiv.
  rewrite <- (fl_1 fl fl_ok 1) by reflexivity.
  apply (fl_mono fl fl_ok).
  apply Qle_shift_div_r; [now apply length_pos_neq0 |].
  rewrite Qmult_1_l.
  rewrite <- (length_map (fun s => fmul fl s s) chunk).
  apply fsum_le_length.
  apply Forall_map. revert Hall. apply Forall_impl.
  intros s [Hlo Hhi]. now apply square_unit.
Qed.

End EnergyRange.

(** X9.  Samples within [-1.0, 1.0] give energies within [0.0, 1.0]: every
    point of the envelope carries the root of a mean square that lies
    between 0 and 1 (for a square root that maps [0, 1] into itself). *)
Theorem envelope_energy_range (fl sqrt : Q -> Q) (samples : list Q)
    (sample_rate : Z) (window_ms : Q) (envelope : list (Q * Q)) :
  rounding fl ->
  (forall x, 0 <= x -> x <= 1 -> 0 <= sqrt x /\ sqrt x <= 1) ->
  Forall (fun s => -1 <= s /\ s <= 1) samples ->
  calculate_energy_envelope fl sqrt samples sample_rate window_ms = Ok envelope ->
  Forall (fun p => 0 <= snd p /\ snd p <= 1) envelope.
Proof.
  intros Hfl Hsqrt Hsamples Hcalc.
  destruct (calculate_energy_envelope_inv fl sqrt _ _ _ _ Hfl Hcalc)
    as [window [_ [[_ ->] | [Hw ->]]]]; [constructor |].
  apply Forall_map, Forall_forall. intros k Hk. apply in_seq in Hk.
  cbn [window_point snd].
  assert (Hi : (0 <= Z.of_nat k * window < Z.of_nat (length samples))%Z)
    by (apply range_len_bound; lia).
  assert (Hlen : length (Py.slice samples (Z.of_nat k * window)
                           (Z.of_nat k * window + window)) <> 0%nat)
    by (rewrite slice_length by lia; lia).
  apply Hsqrt; [apply (mean_square_nonneg fl Hfl) |].
  apply (mean_square_le_one fl Hfl); [exact Hlen |].
  apply Forall_forall. intros s Hs. apply slice_incl in Hs.
  rewrite Forall_forall in Hsamples. now apply Hsamples.
Qed.

Lemma envelope_energy_range_witness :
  rounding round64 /\
  (forall x, 0 <= x -> x <= 1 -> 0 <= double_sqrt x /\ double_sqrt x <= 1) /\
  Forall (fun s => -1 <= s /\ s <= 1) [-1; 1 # 2; 0; 1] /\
  exists envelope,
    calculate_energy_envelope round64 double_sqrt [-1; 1 # 2; 0; 1] 1000 2
    = Ok envelope /\
    Forall (fun p => 0 <= snd p /\ snd p <= 1) envelope.
Proof.
  assert (H1 : Forall (fun s => -1 <= s /\ s <= 1) [-1; 1 # 2; 0; 1])
    by (repeat constructor; discriminate).
  split; [exact round64_rounding | split; [exact double_sqrt_unit |]].
  split; [exact H1 |].
  destruct (calculate_energy_envelope round64 double_sqrt [-1; 1 # 2; 0; 1] 1000 2)
    as [envelope |] eqn:Hcalc; [| vm_compute in Hcalc; discriminate Hcalc].
  exists envelope. split; [reflexivity |].
  exact (envelope_energy_range round64 double_sqrt _ _ _ _
           round64_rounding double_sqrt_unit H1 Hcalc).
Defined.

(** ** [detect_onsets]: what is selected *)

Section Picked.

Variable fl : Q -> Q.
Variables thr d : Q.

Lemma picked_subseq (last : Q) (l : list (Q * Q)) :
  subseq (picked fl thr d last l) l.
Proof.
  revert last. induction l as [| p l IH]; intros last; cbn [picked].
  - constructor.
  - destruct (qualifies fl thr d last p); constructor; apply IH.
Qed.

Lemma picked_above (last : Q) (l : list (Q * Q)) :
  Forall (fun p => thr < snd p) (picked fl thr d last l).
Proof.
  revert last. induction l as [| p l IH]; intros last; cbn [picked].
  - constructor.
  - destruct (qualifies fl thr d last p) eqn:Hq; [| apply IH].
    apply qualifies_true in Hq as [He _]. constructor; [exact He | apply IH].
Qed.

Lemma picked_spaced (last : Q) (l : list (Q * Q)) :
  spaced fl d last (picked fl thr d last l).
Proof.
  revert last. induction l as [| p l IH]; intros last; cbn [picked].
  - exact I.
  - destruct (qualifies fl thr d last p) eqn:Hq; [| apply IH].
    apply qualifies_true in Hq as [_ Hgap]. split; [exact Hgap | apply IH].
Qed.

Lemma subseq_tail {A : Type} (x : A) (s l : list A) :
  subseq (x :: s) l -> subseq s l.
Proof.
  intros H. remember (x :: s) as xs eqn:E. revert x s E.
  induction H as [| y s' l' H IH | y s' l' H IH]; intros x s E.
  - discriminate E.
  - constructor. now apply (IH x).
  - injection E as -> ->. now constructor.
Qed.

Lemma subseq_Forall {A : Type} (P : A -> Prop) (s l : list A) :
  subseq s l -> Forall P l -> Forall P s.
Proof.
  induction 1 as [| y s l H IH | y s l H IH]; intros Hall.
  - constructor.
  - inversion Hall; subst. now apply IH.
  - inversion Hall; subst. constructor; [assumption | now apply IH].
Qed.

Hypothesis fl_ok : rounding fl.

(** The scan takes at least as many points as any other selection that
    keeps the order of the envelope, stays above the threshold and respects
    the minimum distance, even one that starts from a later last onset. *)
Lemma picked_longest (l : list (Q * Q)) :
  time_ordered l ->
  forall (sel : list (Q * Q)) (last1 last2 : Q),
    subseq sel l ->
    Forall (fun p => thr < snd p) sel ->
    spaced fl d last2 sel ->
    last1 <= last2 ->
    (length sel <= length (picked fl thr d last1 l))%nat.
Proof.
  induction 1 as [| p l Hsorted IH Hp]; intros sel last1 last2 Hsub Habove Hsp Hlast.
  - inversion Hsub; subst. cbn. lia.
  - inversion Hsub as [| x s l' Hsub' | x s l' Hsub']; subst; cbn [picked].
    + (* the selection leaves [p] out *)
      destruct (qualifies fl thr d last1 p) eqn:Hq.
      * destruct sel as [| q sel']; [cbn; lia |].
        cbn [length spaced] in *. destruct Hsp as [_ Hsp'].
        inversion Habove; subst.
        assert (Hq' : fst p <= fst q).
        { pose proof (subseq_Forall _ _ _ Hsub' Hp) as H.
          now inversion H; subst. }
        pose proof (IH sel' (fst p) (fst q) (subseq_tail _ _ _ Hsub')
                      ltac:(assumption) Hsp' Hq').
        lia.
      * now apply (IH sel last1 last2).
    + (* the selection takes [p] *)
      cbn [spaced] in Hsp. destruct Hsp as [Hgap Hsp'].
      inversion Habove; subst.
      assert (Hq : qualifies fl thr d last1 p = true).
      { apply qualifies_true. split; [assumption |].
        apply Qlt_le_trans with (fsub fl (fst p) last2); [exact Hgap |].
        apply (fl_mono fl fl_ok). lra. }
      rewrite Hq. cbn [length].
      pose proof (IH s (fst p) (fst p) Hsub' ltac:(assumption) Hsp' (Qle_refl _)).
      lia.
Qed.

End Picked.

(** Events that the script finds far enough apart are far enough apart:
    rounding keeps the order, so a rounded difference above the rounded
    [d / 1000] is an exact difference above the exact [d / 1000]. *)
Lemma spaced_exact (fl : Q -> Q) (d last : Q) (events : list (Q * Q)) :
  rounding fl ->
  spaced fl (fdiv fl d 1000) last events ->
  spaced (fun x => x) (d / 1000) last events.
Proof.
  intros Hfl. revert last.
  induction events as [| p events IH]; intros last; cbn [spaced]; [easy |].
  intros [Hgap Hrest]. split; [| now apply IH].
  unfold fsub, fdiv in *. now apply (fl_lt_inv fl Hfl).
Qed.

(** X10.  [detect_onsets] invents nothing: its output is the envelope with
    points left out, in the same order; every point it keeps has an energy
    strictly above the computed threshold, and above the exact product
    [maxEnergy * thresholdFactor] when the energy is a float; and the
    points it keeps respect the minimum distance, as the script measures
    it and exactly, the first one counted from the sentinel. *)
Theorem detect_onsets_selects (fl : Q -> Q) (envelope : list (Q * Q))
    (threshold_factor min_distance_ms : number) (factor distance : Q) :
  rounding fl ->
  to_float fl threshold_factor = Ok factor ->
  to_float fl min_distance_ms = Ok distance ->
  exists out,
    detect_onsets fl envelope threshold_factor min_distance_ms = Ok out /\
    subseq out envelope /\
    Forall (fun p => exists max_energy,
                Py.max (map snd envelope) = Ok max_energy /\
                fmul fl max_energy factor < snd p /\
                (is_float fl (snd p) -> max_energy * factor < snd p)) out /\
    spaced fl (fdiv fl distance 1000) (-1) out /\
    spaced (fun x => x) (distance / 1000) (-1) out.
Proof.
  intros Hfl Hf Hd.
  rewrite (detect_onsets_converted fl envelope _ _ _ _ Hf Hd).
  destruct envelope as [| p l].
  - exists []. repeat split; constructor.
  - destruct (detect_onsets_picked fl p l factor distance) as [m [Hm [_ ->]]].
    eexists. split; [reflexivity | split; [apply picked_subseq | split]].
    + generalize (picked_above fl (fmul fl m factor) (fdiv fl distance 1000)
                    (-1) (p :: l)).
      apply Forall_impl. intros q Hq. exists m.
      split; [exact Hm | split; [exact Hq |]].
      intros Hfloat. now apply (fl_lt_float fl Hfl).
    + split; [apply picked_spaced |].
      apply (spaced_exact fl _ _ _ Hfl), picked_spaced.
Qed.

Lemma detect_onsets_selects_witness :
  rounding round64 /\
  to_float round64 (PyFloat (1 # 2)) = Ok (1 # 2) /\
  to_float round64 (PyInt 60) = Ok 60 /\
  exists out,
    detect_onsets round64 [(0, 1 # 4); (1 # 16, 1); (1 # 8, 1)]
      (PyFloat (1 # 2)) (PyInt 60) = Ok out /\
    subseq out [(0, 1 # 4); (1 # 16, 1); (1 # 8, 1)] /\
    spaced (fun x => x) (60 / 1000) (-1) out.
Proof.
  assert (Hf : to_float round64 (PyFloat (1 # 2)) = Ok (1 # 2)) by reflexivity.
  assert (Hd : to_float round64 (PyInt 60) = Ok 60) by (vm_compute; reflexivity).
  split; [exact round64_rounding | split; [exact Hf | split; [exact Hd |]]].
  destruct (detect_onsets_selects round64 [(0, 1 # 4); (1 # 16, 1); (1 # 8, 1)]
              (PyFloat (1 # 2)) (PyInt 60) (1 # 2) 60 round64_rounding Hf Hd)
    as [out [Hdet [Hsub [_ [_ Hsp]]]]].
  exists out. split; [exact Hdet | split; [exact Hsub | exact Hsp]].
Defined.

(** X11.  On an envelope in timestamp order the scan is optimal: no
    selection of points above the computed threshold that keeps the order
    of the envelope and respects the minimum distance as the script
    measures it (the first point counted from the sentinel) has more
    points than [detect_onsets] returns. *)
Theorem detect_onsets_longest_selection (fl : Q -> Q)
    (envelope sel : list (Q * Q))
    (threshold_factor min_distance_ms : number)
    (factor distance max_energy : Q) :
  rounding fl ->
  to_float fl threshold_factor = Ok factor ->
  to_float fl min_distance_ms = Ok distance ->
  time_ordered envelope ->
  Py.max (map snd envelope) = Ok max_energy ->
  subseq sel envelope ->
  Forall (fun p => fmul fl max_energy factor < snd p) sel ->
  spaced fl (fdiv fl distance 1000) (-1) sel ->
  exists out,
    detect_onsets fl envelope threshold_factor min_distance_ms = Ok out /\
    (length sel <= length out)%nat.
Proof.
  intros Hfl Hf Hd Hsorted Hmax Hsub Habove Hsp.
  rewrite (detect_onsets_converted fl envelope _ _ _ _ Hf Hd).
  destruct envelope as [| p l]; [discriminate Hmax |].
  destruct (detect_onsets_picked fl p l factor distance) as [m [Hm [_ ->]]].
  assert (m = max_energy) as -> by congruence.
  eexists. split; [reflexivity |].
  exact (picked_longest fl _ _ Hfl _ Hsorted sel (-1) (-1) Hsub Habove Hsp
           (Qle_refl _)).
Qed.

Lemma detect_onsets_longest_selection_witness :
  let envelope := [(0, 1 # 4); (1 # 16, 1); (1 # 8, 1 # 2); (1 # 4, 1)] in
  let sel := [(1 # 16, 1); (1 # 4, 1)] in
  rounding round64 /\
  to_float round64 (PyFloat (1 # 8)) = Ok (1 # 8) /\
  to_float round64 (PyInt 60) = Ok 60 /\
  time_ordered envelope /\
  Py.max (map snd envelope) = Ok 1 /\
  subseq sel envelope /\
  Forall (fun p => fmul round64 1 (1 # 8) < snd p) sel /\
  spaced round64 (fdiv round64 60 1000) (-1) sel /\
  exists out,
    detect_onsets round64 envelope (PyFloat (1 # 8)) (PyInt 60) = Ok out /\
    (length sel <= length out)%nat.
Proof.
  intros envelope sel.
  assert (Hf : to_float round64 (PyFloat (1 # 8)) = Ok (1 # 8)) by reflexivity.
  assert (Hd : to_float round64 (PyInt 60) = Ok 60) by (vm_compute; reflexivity).
  assert (H1 : time_ordered envelope) by (repeat constructor; discriminate).
  assert (H2 : Py.max (map snd envelope) = Ok 1) by reflexivity.
  assert (H3 : subseq sel envelope) by (repeat constructor).
  assert (H4 : Forall (fun p => fmul round64 1 (1 # 8) < snd p) sel)
    by (repeat constructor; vm_compute; reflexivity).
  assert (H5 : spaced round64 (fdiv round64 60 1000) (-1) sel)
    by (repeat split; vm_compute; reflexivity).
  split; [exact round64_rounding | split; [exact Hf | split; [exact Hd |]]].
  split; [exact H1 | split; [exact H2 | split; [exact H3 |
    split; [exact H4 | split; [exact H5 |]]]]].
  exact (detect_onsets_longest_selection round64 envelope sel (PyFloat (1 # 8))
           (PyInt 60) (1 # 8) 60 1 round64_rounding Hf Hd H1 H2 H3 H4 H5).
Defined.

(** ** [detect_onsets]: the threshold *)

(** X12.  With a threshold factor of 1 or more and energies that are
    floats and not negative nothing is detected: no energy exceeds the
    peak, and the threshold is not below the peak. *)
Theorem detect_onsets_factor_at_least_one (fl : Q -> Q)
    (envelope : list (Q * Q))
    (threshold_factor min_distance_ms : number) (factor distance : Q) :
  rounding fl ->
  to_float fl threshold_factor = Ok factor ->
  to_float fl min_distance_ms = Ok distance ->
  Forall (fun p => is_float fl (snd p)) envelope ->
  energies_nonneg envelope ->
  1 <= factor ->
  detect_onsets fl envelope threshold_factor min_distance_ms = Ok [].
Proof.
  intros Hfl Hf Hd Hfloat Hnn Hone.
  rewrite (detect_onsets_converted fl envelope _ _ _ _ Hf Hd).
  destruct envelope as [| p l]; [reflexivity |].
  destruct (detect_onsets_picked fl p l factor distance) as [m [Hm [Hin ->]]].
  pose proof (max_energy_nonneg _ _ Hnn Hin) as Hm0.
  assert (Hmf : is_float fl m).
  { apply in_map_iff in Hin as [q [<- Hq]].
    rewrite Forall_forall in Hfloat. now apply Hfloat. }
  assert (Hthr : m <= fmul fl m factor).
  { apply (fl_le_float fl Hfl); [exact Hmf | nra]. }
  rewrite picked_nothing; [reflexivity |].
  apply Forall_forall. intros q Hq.
  pose proof (max_upper_bound _ _ Hm) as Hub. rewrite Forall_forall in Hub.
  assert (snd q <= m) by (apply Hub, in_map, Hq). lra.
Qed.

Lemma detect_onsets_factor_at_least_one_witness :
  let envelope := [(0, 1 # 2); (1, 1); (2, 0)] in
  rounding round64 /\
  to_float round64 (PyInt 1) = Ok 1 /\
  to_float round64 (PyInt 60) = Ok 60 /\
  Forall (fun p => is_float round64 (snd p)) envelope /\
  energies_nonneg envelope /\ 1 <= 1 /\
  detect_onsets round64 envelope (PyInt 1) (PyInt 60) = Ok [].
Proof.
  intros envelope.
  assert (Hf : to_float round64 (PyInt 1) = Ok 1) by (vm_compute; reflexivity).
  assert (Hd : to_float round64 (PyInt 60) = Ok 60) by (vm_compute; reflexivity).
  assert (H0 : Forall (fun p => is_float round64 (snd p)) envelope)
    by (repeat constructor; vm_compute; reflexivity).
  assert (H1 : energies_nonneg envelope)
    by (repeat constructor; discriminate).
  assert (H2 : 1 <= 1) by discriminate.
  split; [exact round64_rounding | split; [exact Hf | split; [exact Hd |]]].
  split; [exact H0 | split; [exact H1 | split; [exact H2 |]]].
  exact (detect_onsets_factor_at_least_one round64 envelope (PyInt 1) (PyInt 60)
           1 60 round64_rounding Hf Hd H0 H1 H2).
Defined.

Lemma first_above (thr : Q) (l : list (Q * Q)) :
  Exists (fun p => thr < snd p) l ->
  exists pre p post,
    l = pre ++ p :: post /\ Forall (fun q => snd q <= thr) pre /\ thr < snd p.
Proof.
  induction l as [| a l IH]; intros Hex; [inversion Hex |].
  destruct (Qlt_le_dec thr (snd a)) as [Ha | Ha].
  - exists [], a, l. repeat split; [constructor | exact Ha].
  - inversion Hex as [? ? Habs | ? ? Hex']; subst; [lra |].
    destruct (IH Hex') as [pre [p [post [-> [Hpre Hp]]]]].
    exists (a :: pre), p, post. repeat split; [now constructor | exact Hp].
Qed.

(** A factor below 1 does not always put the threshold below the peak:
    on the smallest positive double the product rounds back to the peak,
    and nothing is detected. *)
Lemma threshold_reaches_tiny_peak :
  let peak := 2 ^ (-1074) in
  let factor := round64 (9 # 10) in
  is_float round64 peak /\ factor < 1 /\
  fmul round64 peak factor == peak /\
  detect_onsets round64 [(0, peak)] (PyFloat factor) (PyInt 60) = Ok [].
Proof.
  split; [vm_compute; reflexivity |].
  split; [vm_compute; reflexivity |].
  split; vm_compute; reflexivity.
Qed.

(** X13.  When the computed threshold is below the peak energy (as it is
    for a peak that is not tiny and a factor below 1), timestamps are not
    negative and the computed minimum distance is below one second, an
    onset is found: the output starts with the first point of the envelope
    whose energy exceeds the threshold. *)
Theorem detect_onsets_finds_first (fl : Q -> Q) (envelope : list (Q * Q))
    (threshold_factor min_distance_ms : number)
    (factor distance max_energy : Q) :
  rounding fl ->
  to_float fl threshold_factor = Ok factor ->
  to_float fl min_distance_ms = Ok distance ->
  Py.max (map snd envelope) = Ok max_energy ->
  fmul fl max_energy factor < max_energy ->
  Forall (fun p => 0 <= fst p) envelope ->
  fdiv fl distance 1000 < 1 ->
  exists pre p post rest,
    envelope = pre ++ p :: post /\
    Forall (fun q => snd q <= fmul fl max_energy factor) pre /\
    fmul fl max_energy factor < snd p /\
    detect_onsets fl envelope threshold_factor min_distance_ms = Ok (p :: rest).
Proof.
  intros Hfl Hf Hd Hmax Hbelow Htimes Hdist.
  rewrite (detect_onsets_converted fl envelope _ _ _ _ Hf Hd).
  assert (Hin : In max_energy (map snd envelope)) by now apply max_in.
  assert (Hex : Exists (fun p => fmul fl max_energy factor < snd p) envelope).
  { apply in_map_iff in Hin as [q [Hq Hin]]. apply Exists_exists.
    exists q. split; [exact Hin |]. now rewrite Hq. }
  destruct (first_above _ _ Hex) as [pre [[t e] [post [Henv [Hpre Hp]]]]].
  rewrite Henv in Hmax, Htimes |- *.
  assert (Ht : 0 <= t).
  { rewrite Forall_forall in Htimes.
    apply (Htimes (t, e)), in_or_app. right. now left. }
  destruct (detect_onsets_first_onset fl pre post t e factor distance max_energy
              Hfl Hmax Hpre Hp Ht Hdist) as [rest Hdet].
  exists pre, (t, e), post, rest. repeat split; assumption.
Qed.

Lemma detect_onsets_finds_first_witness :
  let envelope := [(0, 1 # 16); (1 # 128, 1 # 2); (1 # 64, 1)] in
  rounding round64 /\
  to_float round64 (PyFloat (1 # 4)) = Ok (1 # 4) /\
  to_float round64 (PyInt 60) = Ok 60 /\
  Py.max (map snd envelope) = Ok 1 /\
  fmul round64 1 (1 # 4) < 1 /\
  Forall (fun p => 0 <= fst p) envelope /\
  fdiv round64 60 1000 < 1 /\
  exists pre p post rest,
    envelope = pre ++ p :: post /\
    Forall (fun q => snd q <= fmul round64 1 (1 # 4)) pre /\
    fmul round64 1 (1 # 4) < snd p /\
    detect_onsets round64 envelope (PyFloat (1 # 4)) (PyInt 60) = Ok (p :: rest).
Proof.
  intros envelope.
  assert (Hf : to_float round64 (PyFloat (1 # 4)) = Ok (1 # 4)) by reflexivity.
  assert (Hd : to_float round64 (PyInt 60) = Ok 60) by (vm_compute; reflexivity).
  assert (H1 : Py.max (map snd envelope) = Ok 1) by reflexivity.
  assert (H2 : fmul round64 1 (1 # 4) < 1) by (vm_compute; reflexivity).
  assert (H4 : Forall (fun p => 0 <= fst p) envelope)
    by (repeat constructor; discriminate).
  assert (H5 : fdiv round64 60 1000 < 1) by (vm_compute; reflexivity).
  split; [exact round64_rounding | split; [exact Hf | split; [exact Hd |]]].
  split; [exact H1 | split; [exact H2 | split; [exact H4 | split; [exact H5 |]]]].
  exact (detect_onsets_finds_first round64 envelope (PyFloat (1 # 4)) (PyInt 60)
           (1 # 4) 60 1 round64_rounding Hf Hd H1 H2 H4 H5).
Defined.

Lemma picked_filter (fl : Q -> Q) (thr d last : Q) (l : list (Q * Q)) :
  StronglySorted (fun p q => d < fsub fl (fst q) (fst p)) l ->
  Forall (fun p => d < fsub fl (fst p) last) l ->
  picked fl thr d last l = filter (fun p => Py.gt (snd p) thr) l.
Proof.
  intros Hs. revert last. induction Hs as [| p l Hs IH Hp]; intros last Hlast;
    [reflexivity |].
  inversion Hlast as [| ? ? Hgap Hlast']; subst.
  cbn [picked filter]. unfold qualifies.
  rewrite (proj2 (gt_true (fsub fl (fst p) last) d) Hgap), andb_true_r.
  destruct (Py.gt (snd p) thr); [f_equal |]; now apply IH.
Qed.

(** X14.  When the script finds any two points of the envelope more than
    the minimum distance apart, and each more than the minimum distance
    after the sentinel, the minimum distance rejects nothing:
    [detect_onsets] returns exactly the points whose energy exceeds the
    threshold.  This is the case of every envelope in timestamp order,
    with timestamps that are not negative, when [min_distance_ms] is
    negative. *)
Theorem detect_onsets_plain_threshold (fl : Q -> Q) (envelope : list (Q * Q))
    (threshold_factor min_distance_ms : number)
    (factor distance max_energy : Q) :
  to_float fl threshold_factor = Ok factor ->
  to_float fl min_distance_ms = Ok distance ->
  Py.max (map snd envelope) = Ok max_energy ->
  StronglySorted
    (fun p q => fdiv fl distance 1000 < fsub fl (fst q) (fst p)) envelope ->
  Forall (fun p => fdiv fl distance 1000 < fsub fl (fst p) (-1)) envelope ->
  detect_onsets fl envelope threshold_factor min_distance_ms
  = Ok (filter (fun p => Py.gt (snd p) (fmul fl max_energy factor)) envelope).
Proof.
  intros Hf Hd Hmax Hs Hfirst.
  rewrite (detect_onsets_converted fl envelope _ _ _ _ Hf Hd).
  destruct envelope as [| p l]; [discriminate Hmax |].
  destruct (detect_onsets_picked fl p l factor distance) as [m [Hm [_ ->]]].
  assert (m = max_energy) as -> by congruence.
  now rewrite picked_filter.
Qed.

Lemma detect_onsets_plain_threshold_witness :
  let envelope := [(0, 1); (1 # 256, 1 # 16); (2 # 256, 1); (3 # 256, 1)] in
  to_float round64 (PyFloat (1 # 2)) = Ok (1 # 2) /\
  to_float round64 (PyInt (-1)) = Ok (-1) /\
  Py.max (map snd envelope) = Ok 1 /\
  StronglySorted
    (fun p q => fdiv round64 (-1) 1000 < fsub round64 (fst q) (fst p))
    envelope /\
  Forall (fun p => fdiv round64 (-1) 1000 < fsub round64 (fst p) (-1))
    envelope /\
  detect_onsets round64 envelope (PyFloat (1 # 2)) (PyInt (-1))
  = Ok (filter (fun p => Py.gt (snd p) (fmul round64 1 (1 # 2))) envelope).
Proof.
  intros envelope.
  assert (Hf : to_float round64 (PyFloat (1 # 2)) = Ok (1 # 2)) by reflexivity.
  assert (Hd : to_float round64 (PyInt (-1)) = Ok (-1))
    by (vm_compute; reflexivity).
  assert (H1 : Py.max (map snd envelope) = Ok 1) by reflexivity.
  assert (H2 : StronglySorted
                 (fun p q => fdiv round64 (-1) 1000
                             < fsub round64 (fst q) (fst p)) envelope)
    by (repeat constructor; vm_compute; reflexivity).
  assert (H3 : Forall (fun p => fdiv round64 (-1) 1000
                                < fsub round64 (fst p) (-1)) envelope)
    by (repeat constructor; vm_compute; reflexivity).
  split; [exact Hf | split; [exact Hd |]].
  split; [exact H1 | split; [exact H2 | split; [exact H3 |]]].
  exact (detect_onsets_plain_threshold round64 envelope (PyFloat (1 # 2))
           (PyInt (-1)) (1 # 2) (-1) 1 Hf Hd H1 H2 H3).
Defined.

(** ** [detect_onsets]: the threshold is not relative on floats *)

(** Scaling every energy by the same gain scales the threshold too, but
    not the roundings: the same envelope three times louder has one onset
    more. *)
Lemma gain_changes_detection :
  let quiet := round64 (4687500000000001 # 1000000000000000000) in
  let factor := round64 (5 # 100) in
  detect_onsets round64 [(0, 3 # 32); (1, quiet)] (PyFloat factor) (PyInt 60)
  = Ok [(0, 3 # 32)] /\
  detect_onsets round64
    [(0, fmul round64 3 (3 # 32)); (1, fmul round64 3 quiet)]
    (PyFloat factor) (PyInt 60)
  = Ok [(0, fmul round64 3 (3 # 32)); (1, fmul round64 3 quiet)].
Proof. split; vm_compute; reflexivity. Qed.

(** ** [main]: the sweep and the peak list *)

Section Sweep.

Variable fl : Q -> Q.
Hypothesis fl_ok : rounding fl.

(** The minimum distance of the sweep: the [int] 60, converted and
    divided by 1000.0. *)
Lemma sweep_loop_picked (envelope : list (Q * Q)) (m shown : Q)
    (factors : list Q) :
  Py.max (map snd envelope) = Ok m ->
  sweep_loop fl envelope shown factors
  = Ok (map (fun f => (f, fmul fl shown f,
                       picked fl (fmul fl m f)
                         (fdiv fl (fl (inject_Z 60)) 1000) (-1) envelope))
            factors).
Proof.
  intros Hmax. destruct envelope as [| p l]; [discriminate Hmax |].
  destruct (to_float_small fl 60 fl_ok ltac:(vm_compute; discriminate))
    as [Hd _].
  induction factors as [| f factors IH]; [reflexivity |].
  cbn [sweep_loop map].
  rewrite (detect_onsets_converted fl (p :: l) (PyFloat f) (PyInt 60) f _
             eq_refl Hd).
  destruct (detect_onsets_picked fl p l f (fl (inject_Z 60)))
    as [m' [Hm' [_ ->]]].
  assert (m' = m) as -> by congruence.
  cbn [bind]. now rewrite IH.
Qed.

Lemma sweep_loop_silent (shown : Q) (factors : list Q) :
  sweep_loop fl [] shown factors
  = Ok (map (fun f => (f, fmul fl shown f, [])) factors).
Proof.
  induction factors as [| f factors IH]; [reflexivity |].
  cbn [sweep_loop map detect_onsets bind]. now rewrite IH.
Qed.

Lemma StronglySorted_map {A B : Type} (R : B -> B -> Prop) (g : A -> B)
    (l : list A) :
  StronglySorted (fun a b => R (g a) (g b)) l -> StronglySorted R (map g l).
Proof.
  induction 1 as [| a l _ IH Ha]; cbn [map]; constructor; [exact IH |].
  now apply Forall_map.
Qed.

(** The literals of the sweep increase, and so do the doubles nearest to
    them. *)
Lemma sweep_factors_increase : StronglySorted Qle (sweep_factors fl).
Proof.
  unfold sweep_factors. apply StronglySorted_map.
  apply (StronglySorted_weaken Qle); [intros x y; apply (fl_mono fl fl_ok) |].
  repeat constructor; discriminate.
Qed.

End Sweep.

(** X16.  On an envelope of the data model the sweep of [main] reports one
    entry per factor, in the order 5%, 10%, ..., 30%, and the number of
    onsets never goes up from one entry to a later one. *)
Theorem sweep_counts_never_increase (fl : Q -> Q) (envelope : list (Q * Q))
    (shown : Q) :
  rounding fl ->
  time_ordered envelope ->
  energies_nonneg envelope ->
  exists swept,
    sweep_loop fl envelope shown (sweep_factors fl) = Ok swept /\
    map (fun entry => fst (fst entry)) swept = sweep_factors fl /\
    StronglySorted
      (fun a b => (length (snd b) <= length (snd a))%nat) swept.
Proof.
  intros Hfl Hsorted Hnn. destruct envelope as [| p l].
  - rewrite sweep_loop_silent. eexists. split; [reflexivity | split].
    + rewrite map_map. cbn [fst]. apply map_id.
    + apply StronglySorted_map. cbn [snd length].
      apply (StronglySorted_weaken Qle); [intros; lia |].
      now apply sweep_factors_increase.
  - destruct (detect_onsets_picked fl p l 0 0) as [m [Hm [Hin _]]].
    rewrite (sweep_loop_picked fl Hfl _ m) by exact Hm.
    eexists. split; [reflexivity | split].
    + rewrite map_map. cbn [fst]. apply map_id.
    + apply StronglySorted_map. cbn [snd].
      apply (StronglySorted_weaken Qle); [| now apply sweep_factors_increase].
      intros f1 f2 Hf.
      assert (Hm0 : 0 <= m) by exact (max_energy_nonneg _ _ Hnn Hin).
      assert (Hthr : fmul fl m f1 <= fmul fl m f2)
        by now apply threshold_monotone.
      exact (proj1 (picked_monotone fl Hfl _ _ _ _ Hthr Hsorted (-1) (-1))
               (Qle_refl _)).
Qed.

Lemma sweep_counts_never_increase_witness :
  let envelope := [(0, 1 # 4); (1 # 8, 1); (1 # 4, 1 # 8); (3 # 8, 1 # 4)] in
  rounding round64 /\
  time_ordered envelope /\ energies_nonneg envelope /\
  exists swept,
    sweep_loop round64 envelope 1 (sweep_factors round64) = Ok swept /\
    map (fun entry => fst (fst entry)) swept = sweep_factors round64 /\
    StronglySorted
      (fun a b => (length (snd b) <= length (snd a))%nat) swept.
Proof.
  intros envelope.
  assert (H1 : time_ordered envelope) by (repeat constructor; discriminate).
  assert (H2 : energies_nonneg envelope) by (repeat constructor; discriminate).
  split; [exact round64_rounding | split; [exact H1 | split; [exact H2 |]]].
  exact (sweep_counts_never_increase round64 envelope 1 round64_rounding H1 H2).
Defined.

Lemma StronglySorted_trivial {A : Type} (l : list A) :
  StronglySorted (fun _ _ => True) l.
Proof.
  induction l as [| a l IH]; constructor; [exact IH |].
  apply Forall_forall. intros; exact I.
Qed.

(** X17.  The first line of the peak list of [main] shows the peak energy:
    on a non-empty envelope the first reported point exists and its energy
    equals the maximum that [main] prints and that [detect_onsets] scales
    its threshold from. *)
Theorem top_peak_is_max_energy (envelope : list (Q * Q)) :
  envelope <> [] ->
  exists p rest max_energy,
    main_peaks envelope = p :: rest /\
    Py.max (map snd envelope) = Ok max_energy /\
    snd p == max_energy.
Proof.
  intros Hne.
  pose proof (sorted_reverse_perm snd envelope) as Hperm.
  pose proof (sorted_reverse_sorted snd (fun _ _ => True) envelope
                (StronglySorted_trivial envelope)) as Hs.
  unfold main_peaks, top_peaks. rewrite slice_prefix by lia.
  destruct (Py.sorted_reverse snd envelope) as [| p tl] eqn:E.
  { apply Permutation_nil in Hperm. contradiction. }
  destruct envelope as [| p0 l0]; [contradiction |].
  assert (Hmax : exists m, Py.max (map snd (p0 :: l0)) = Ok m)
    by (eexists; reflexivity).
  destruct Hmax as [m Hm]. pose proof (max_in _ _ Hm) as Hin.
  exists p, (firstn 19 tl), m.
  split; [reflexivity | split; [exact Hm |]].
  apply Qle_antisym.
  - pose proof (max_upper_bound _ _ Hm) as Hub. rewrite Forall_forall in Hub.
    apply Hub, in_map. apply (Permutation_in _ Hperm). now left.
  - apply in_map_iff in Hin as [q [<- Hq]].
    apply (Permutation_in _ (Permutation_sym Hperm)) in Hq.
    destruct Hq as [<- | Hq]; [apply Qle_refl |].
    inversion Hs as [| ? ? _ Hall]; subst. rewrite Forall_forall in Hall.
    apply (stable_desc_key snd (fun _ _ => True)). now apply Hall.
Qed.

Lemma top_peak_is_max_energy_witness :
  [(0, 1 # 2); (1, 3 # 4); (2, 6 # 8)] <> [] /\
  exists p rest max_energy,
    main_peaks [(0, 1 # 2); (1, 3 # 4); (2, 6 # 8)] = p :: rest /\
    Py.max (map snd [(0, 1 # 2); (1, 3 # 4); (2, 6 # 8)]) = Ok max_energy /\
    snd p == max_energy.
Proof.
  assert (H : [(0, 1 # 2); (1, 3 # 4); (2, 6 # 8)] <> []) by discriminate.
  split; [exact H |].
  exact (top_peak_is_max_energy [(0, 1 # 2); (1, 3 # 4); (2, 6 # 8)] H).
Defined.

(** ** [main]: which recordings it can report on *)

Lemma floor_unit (q : Q) : 0 <= q -> q < 1 -> Py.int q = 0%Z.
Proof.
  intros H0 H1. apply int_of_floor_zero.
  pose proof (Qfloor_le q) as Hle.
  assert (Hlt : (Qfloor q < 1)%Z).
  { rewrite Zlt_Qlt. change (inject_Z 1) with 1. lra. }
  assert (Hge : (Qfloor 0 <= Qfloor q)%Z) by now apply Qfloor_resp_le.
  change (Qfloor 0) with 0%Z in Hge. lia.
Qed.

Section Window5ms.

Variable fl : Q -> Q.
Hypothesis fl_ok : rounding fl.

(** The window of [main], 5 ms at a sample rate that fits a WAV header:
    the product [rate * 5.0] is exact and the quotient is rounded once. *)
Lemma window_5ms (rate : Z) :
  (0 <= rate < 2 ^ 32)%Z ->
  exists q,
    window_samples fl rate 5 = Ok (Py.int q) /\
    q == fl (inject_Z (5 * rate) / 1000).
Proof.
  intros Hrate.
  assert (Hsmall : (Z.abs rate <= 2 ^ 53)%Z) by lia.
  assert (Hp : (Z.abs (5 * rate) <= 2 ^ 53)%Z) by lia.
  unfold window_samples, window_quotient.
  destruct (to_float_small fl rate fl_ok Hsmall) as [-> Hfloat].
  cbn [bind].
  assert (Hproduct : fmul fl (fl (inject_Z rate)) 5 == inject_Z (5 * rate)).
  { unfold fmul. apply (fl_of_int fl fl_ok); [exact Hp |].
    rewrite Hfloat, inject_Z_mult. change (inject_Z 5) with 5. ring. }
  rewrite (int_fits _ _ Hp Hproduct). cbn [bind].
  eexists. split; [reflexivity |].
  unfold fdiv. apply (fl_eq fl fl_ok). now rewrite Hproduct.
Qed.

Lemma window_5ms_positive (rate : Z) :
  (200 <= rate < 2 ^ 32)%Z ->
  exists window, window_samples fl rate 5 = Ok window /\ (1 <= window)%Z.
Proof.
  intros Hrate. destruct (window_5ms rate ltac:(lia)) as [q [Hwin Hq]].
  exists (Py.int q). split; [exact Hwin |].
  change 1%Z with (Py.int 1). apply int_mono_nonneg; [lra |].
  rewrite Hq. apply (fl_le_float fl fl_ok).
  - apply (fl_1 fl fl_ok). reflexivity.
  - apply Qle_shift_div_l; [reflexivity |].
    change (1 * 1000) with (inject_Z 1000). rewrite <- Zle_Qle. lia.
Qed.

Lemma window_5ms_zero (rate : Z) :
  (0 <= rate < 200)%Z -> window_samples fl rate 5 = Ok 0%Z.
Proof.
  intros Hrate. destruct (window_5ms rate ltac:(lia)) as [q [-> Hq]].
  f_equal. apply floor_unit.
  - rewrite Hq. apply (fl_nonneg fl fl_ok).
    apply Qle_shift_div_l; [reflexivity |].
    rewrite Qmult_0_l. change 0 with (inject_Z 0). rewrite <- Zle_Qle. lia.
  - rewrite Hq. destruct (Z.eq_dec rate 0) as [-> | Hne].
    + rewrite (fl_0 fl fl_ok) by reflexivity. reflexivity.
    + set (x := inject_Z (5 * rate) / 1000).
      assert (Hlow : 5 # 1000 <= x).
      { apply Qle_shift_div_l; [reflexivity |].
        apply Qle_trans with (inject_Z 5); [discriminate |].
        rewrite <- Zle_Qle. lia. }
      assert (Hhigh : x <= 995 # 1000).
      { apply Qle_shift_div_r; [reflexivity |].
        apply Qle_trans with (inject_Z 995); [| discriminate].
        rewrite <- Zle_Qle. lia. }
      assert (Hnormal : 2 ^ (-1022) <= x).
      { apply Qle_trans with (2 ^ (-10)); [apply pow2_le; lia |].
        change (2 ^ (-10)) with (1 # 1024). lra. }
      destruct (fl_bounds fl fl_ok x Hnormal) as [_ Hup]. lra.
Qed.

End Window5ms.

Lemma read_wav_16bit_ok (unpack_f : nat -> list byte -> result (list Q))
    (w : wav) :
  getsampwidth w = 2%Z ->
  length (readframes w) = (2 * getnframes w)%nat ->
  exists samples,
    read_wav unpack_f w = Ok (samples, getframerate w) /\
    length samples = getnframes w.
Proof.
  intros Hwidth Hlen. destruct (unpack_h_ok _ _ Hlen) as [xs [Hxs [Hl _]]].
  unfold read_wav. rewrite Hwidth, Hxs. cbn [Z.eqb Pos.eqb bind].
  eexists. split; [reflexivity |]. now rewrite length_map.
Qed.

Section MainOutcome.

Variable fl : Q -> Q.
Hypothesis fl_ok : rounding fl.
Variable unpack_f : nat -> list byte -> result (list Q).
Variable sqrt : Q -> Q.
Variable w : wav.

Hypothesis width_2 : getsampwidth w = 2%Z.
Hypothesis whole_frames : length (readframes w) = (2 * getnframes w)%nat.

(** X18.  On a 16-bit recording with at least one frame and a sample rate
    of 200 Hz or more (below [2^32], as a WAV header holds it), [main]
    runs to the end: it reports the sample rate and the number of frames
    of the file, the duration [frames / sample rate], the six swept
    factors each with its absolute threshold [max energy * factor], and a
    peak list of 1 to 20 points. *)
Theorem main_reports :
  getnframes w <> 0%nat ->
  (200 <= getframerate w < 2 ^ 32)%Z ->
  exists r,
    main fl unpack_f sqrt w = Ok r /\
    report_sample_rate r = getframerate w /\
    report_num_samples r = getnframes w /\
    report_duration r
    = fl (inject_Z (Z.of_nat (getnframes w)) / inject_Z (getframerate w)) /\
    map (fun entry => fst (fst entry)) (report_sweep r) = sweep_factors fl /\
    Forall (fun entry =>
              snd (fst entry) = fmul fl (report_max_energy r) (fst (fst entry)))
      (report_sweep r) /\
    (1 <= length (report_peaks r) <= 20)%nat.
Proof.
  intros Hframes Hrate.
  destruct (read_wav_16bit_ok unpack_f w width_2 whole_frames)
    as [samples [Hread Hlen]].
  destruct (window_5ms_positive fl fl_ok (getframerate w) Hrate)
    as [window [Hwin Hw]].
  destruct (envelope_length fl sqrt samples (getframerate w) 5 window
              fl_ok Hwin Hw) as [envelope [Hcalc [_ Hcount]]].
  assert (Hne : envelope <> []).
  { intros ->. cbn [length Z.of_nat] in Hcount. symmetry in Hcount.
    apply Z.div_small_iff in Hcount; lia. }
  destruct envelope as [| p l]; [contradiction |].
  assert (Hmax : exists m, Py.max (map snd (p :: l)) = Ok m)
    by (eexists; reflexivity).
  destruct Hmax as [m Hm].
  unfold main. rewrite Hread. cbn [bind fst snd].
  rewrite int_truediv_ok by lia. cbn [bind].
  rewrite Hcalc. cbn [bind]. rewrite Hm. cbn [bind].
  rewrite (sweep_loop_picked fl fl_ok _ m m) by exact Hm. cbn [bind].
  eexists. split; [reflexivity |].
  cbn [report_sample_rate report_num_samples report_duration report_sweep
       report_max_energy report_peaks].
  split; [reflexivity | split; [exact Hlen | split; [now rewrite Hlen |]]].
  split; [| split].
  - rewrite map_map. cbn [fst]. apply map_id.
  - apply Forall_map, Forall_forall. intros f _. reflexivity.
  - unfold main_peaks, top_peaks. rewrite slice_prefix by lia.
    rewrite length_firstn,
      (Permutation_length (sorted_reverse_perm snd (p :: l))).
    cbn [length]. lia.
Qed.

(** X19.  [main] cannot report on a recording without frames: the
    envelope is empty and the maximum of no energies raises a
    [ValueError], although [detect_onsets] itself accepts an empty
    envelope. *)
Theorem main_empty_recording :
  getnframes w = 0%nat ->
  (200 <= getframerate w < 2 ^ 32)%Z ->
  main fl unpack_f sqrt w = Err (ValueError MaxEmpty).
Proof.
  intros Hframes Hrate.
  destruct (read_wav_16bit_ok unpack_f w width_2 whole_frames)
    as [samples [Hread Hlen]].
  rewrite Hframes in Hlen. destruct samples; [| discriminate Hlen].
  destruct (window_5ms_positive fl fl_ok (getframerate w) Hrate)
    as [window [Hwin Hw]].
  unfold main. rewrite Hread. cbn [bind fst snd].
  rewrite int_truediv_ok by lia. cbn [bind].
  rewrite (empty_samples_empty_envelope fl sqrt _ _ window Hwin) by lia.
  reflexivity.
Qed.

(** X20.  [main] cannot report on a recording sampled below 200 Hz: its
    5 ms window is then 0 samples long and [range] raises a [ValueError];
    for a sample rate of 0 the duration is computed first and the division
    raises. *)
Theorem main_low_sample_rate :
  (0 <= getframerate w < 200)%Z ->
  main fl unpack_f sqrt w
  = Err (if (getframerate w =? 0)%Z then ZeroDivisionError
         else ValueError RangeStepZero).
Proof.
  intros Hrate.
  destruct (read_wav_16bit_ok unpack_f w width_2 whole_frames)
    as [samples [Hread _]].
  unfold main. rewrite Hread. cbn [bind fst snd].
  destruct (Z.eqb_spec (getframerate w) 0) as [E | E].
  - rewrite E. reflexivity.
  - rewrite int_truediv_ok by exact E. cbn [bind].
    unfold calculate_energy_envelope.
    rewrite (window_5ms_zero fl fl_ok _ Hrate). reflexivity.
Qed.

End MainOutcome.

Lemma main_reports_witness :
  let w := {| getframerate := 8000; getnframes := 2; getsampwidth := 2;
              readframes := [x00; x40; x00; xc0] |} in
  rounding round64 /\
  getsampwidth w = 2%Z /\
  length (readframes w) = (2 * getnframes w)%nat /\
  getnframes w <> 0%nat /\ (200 <= getframerate w < 2 ^ 32)%Z /\
  exists r,
    main round64 (fun _ _ => Ok []) double_sqrt w = Ok r /\
    report_num_samples r = 2%nat /\
    (1 <= length (report_peaks r) <= 20)%nat.
Proof.
  intros w.
  assert (H1 : getsampwidth w = 2%Z) by reflexivity.
  assert (H2 : length (readframes w) = (2 * getnframes w)%nat) by reflexivity.
  assert (H3 : getnframes w <> 0%nat) by discriminate.
  assert (H4 : (200 <= getframerate w < 2 ^ 32)%Z) by (cbn; lia).
  split; [exact round64_rounding |].
  split; [exact H1 | split; [exact H2 | split; [exact H3 | split; [exact H4 |]]]].
  destruct (main_reports round64 round64_rounding (fun _ _ => Ok []) double_sqrt
              w H1 H2 H3 H4)
    as [r [Hmain [_ [Hn [_ [_ [_ Hpeaks]]]]]]].
  exists r. split; [exact Hmain | split; [exact Hn | exact Hpeaks]].
Defined.

Lemma main_empty_recording_witness :
  let w := {| getframerate := 44100; getnframes := 0; getsampwidth := 2;
              readframes := [] |} in
  rounding round64 /\
  getsampwidth w = 2%Z /\
  length (readframes w) = (2 * getnframes w)%nat /\
  getnframes w = 0%nat /\ (200 <= getframerate w < 2 ^ 32)%Z /\
  main round64 (fun _ _ => Ok []) double_sqrt w = Err (ValueError MaxEmpty).
Proof.
  intros w.
  assert (H1 : getsampwidth w = 2%Z) by reflexivity.
  assert (H2 : length (readframes w) = (2 * getnframes w)%nat) by reflexivity.
  assert (H3 : getnframes w = 0%nat) by reflexivity.
  assert (H4 : (200 <= getframerate w < 2 ^ 32)%Z) by (cbn; lia).
  split; [exact round64_rounding |].
  split; [exact H1 | split; [exact H2 | split; [exact H3 | split; [exact H4 |]]]].
  exact (main_empty_recording round64 round64_rounding (fun _ _ => Ok [])
           double_sqrt w H1 H2 H3 H4).
Defined.

Lemma main_low_sample_rate_witness :
  let w := {| getframerate := 100; getnframes := 1; getsampwidth := 2;
              readframes := [x00; x40] |} in
  rounding round64 /\
  getsampwidth w = 2%Z /\
  length (readframes w) = (2 * getnframes w)%nat /\
  (0 <= getframerate w < 200)%Z /\
  main round64 (fun _ _ => Ok []) double_sqrt w
  = Err (ValueError RangeStepZero).
Proof.
  intros w.
  assert (H1 : getsampwidth w = 2%Z) by reflexivity.
  assert (H2 : length (readframes w) = (2 * getnframes w)%nat) by reflexivity.
  assert (H3 : (0 <= getframerate w < 200)%Z) by (cbn; lia).
  split; [exact round64_rounding |].
  split; [exact H1 | split; [exact H2 | split; [exact H3 |]]].
  exact (main_low_sample_rate round64 round64_rounding (fun _ _ => Ok [])
           double_sqrt w H1 H2 H3).
Defined.
